(** * A shallow embedding of the pdf_translate job scheduler and image-region
    translation pipeline.

    Python [str] values are modelled as lists of Unicode code points
    ([list Z]); Python floats that the code computes from integers are
    modelled by exact rationals ([Q]). *)

From Stdlib Require Import ZArith QArith Qminmax Qround Qabs Lia Sorted.
From stdpp Require Import base gmap list strings.

Local Open Scope Z_scope.

(** ** Python strings *)

Abbreviation pystr := (list Z).

(** An ASCII literal as a Python string. *)
Definition pys (x : string) : pystr :=
  map (fun a => Z.of_nat (Ascii.nat_of_ascii a)) (String.list_ascii_of_string x).

(** Python's [<] on strings: lexicographic on code points, a proper prefix
    being smaller. *)
Fixpoint str_ltb (a b : pystr) : bool :=
  match a, b with
  | [], [] => false
  | [], _ :: _ => true
  | _ :: _, [] => false
  | x :: a', y :: b' => if Z.ltb x y then true else if Z.eqb x y then str_ltb a' b' else false
  end.

(** [str.isspace()] on one code point (the characters Python strips by
    default). *)
Definition py_isspace (c : Z) : bool :=
  ((9 <=? c) && (c <=? 13)) || ((0x1c <=? c) && (c <=? 0x20)) || (c =? 0x85) || (c =? 0xa0) ||
  (c =? 0x1680) || ((0x2000 <=? c) && (c <=? 0x200a)) || (c =? 0x2028) || (c =? 0x2029) ||
  (c =? 0x202f) || (c =? 0x205f) || (c =? 0x3000).

Fixpoint py_lstrip (s : pystr) : pystr :=
  match s with
  | c :: s' => if py_isspace c then py_lstrip s' else s
  | [] => []
  end.

Definition py_rstrip (s : pystr) : pystr := rev (py_lstrip (rev s)).

Definition py_strip (s : pystr) : pystr := py_rstrip (py_lstrip s).

(** [s.rstrip(c)] for a one-character argument. *)
Fixpoint drop_while_eq (c : Z) (s : pystr) : pystr :=
  match s with
  | d :: s' => if Z.eqb d c then drop_while_eq c s' else s
  | [] => []
  end.

Definition py_rstrip_char (c : Z) (s : pystr) : pystr := rev (drop_while_eq c (rev s)).

(** ** Python numbers *)

(** [a < b] on floats (rationals here). *)
Definition Qltb (a b : Q) : bool := negb (Qle_bool b a).

(** [int(q)] of a float: truncation toward zero. *)
Definition py_int (q : Q) : Z := Z.quot (Qnum q) (Zpos (Qden q)).

(** [math.ceil(a / b)] for integers, [b > 0]. *)
Definition ceil_div (a b : Z) : Z := - ((- a) / b).

(** ** Module [Scheduler]: [app/services/translation_service.py] *)

Module Scheduler.

(** Task status values of [active_translations[...]["status"]]. *)
Inductive status := Queued | Running | Completed | Error | Cancelled | Invalid.

(** The fields of an [active_translations] record that the scheduler
    reads and writes. *)
Record trans_rec := mkRec { status_of : status; stage_of : pystr }.

(** An [asyncio.Task] running [run_translation(task_id, config)]; the
    config is opaque here, [cancel_requested] records [task.cancel()]. *)
Record task := mkTask { task_config : Z; cancel_requested : bool }.

(** A [pending_queue] element [(created_at_iso, task_id, config)]. *)
Record entry := mkEntry { created_at : pystr; task_id : pystr; config : Z }.

(** The module-level run-time state; [history] is the persisted copy
    written by [save_or_update_history]. *)
Record sched := mkSched {
  active_translations : gmap pystr trans_rec;
  active_tasks : gmap pystr task;
  pending_queue : list entry;
  history : gmap pystr trans_rec
}.

Definition empty_sched : sched := mkSched ∅ ∅ [] ∅.

Definition set_active_tasks (m : gmap pystr task) (s : sched) : sched :=
  mkSched (active_translations s) m (pending_queue s) (history s).
Definition set_pending_queue (q : list entry) (s : sched) : sched :=
  mkSched (active_translations s) (active_tasks s) q (history s).

(** ["初始化"], ["排队中"], ["排队转运行中"] *)
Definition stage_init : pystr := [0x521d; 0x59cb; 0x5316].
Definition stage_queued : pystr := [0x6392; 0x961f; 0x4e2d].
Definition stage_dequeued : pystr := [0x6392; 0x961f; 0x8f6c; 0x8fd0; 0x884c; 0x4e2d].

(** [if task_id in active_translations: active_translations[task_id].update(..);
    save_or_update_history(active_translations[task_id])] *)
Definition update_record (tid : pystr) (f : trans_rec -> trans_rec) (s : sched) : sched :=
  match active_translations s !! tid with
  | Some r =>
      let r' := f r in
      mkSched (<[tid := r']> (active_translations s)) (active_tasks s)
              (pending_queue s) (<[tid := r']> (history s))
  | None => s
  end.

Section WithCap.

Variable MAX_CONCURRENT : Z.

Definition _running_count (s : sched) : Z := Z.of_nat (size (active_tasks s)).

Definition _start_task (tid : pystr) (cfg : Z) (s : sched) : sched :=
  set_active_tasks (<[tid := mkTask cfg false]> (active_tasks s)) s.

(** [pending_queue.sort(key=lambda x: x[0])]: a stable sort on
    [created_at], written as insertion of each element after every
    element whose key is not larger. *)
Fixpoint insert_by_created (e : entry) (l : list entry) : list entry :=
  match l with
  | [] => [e]
  | y :: l' =>
      if str_ltb (created_at e) (created_at y) then e :: y :: l'
      else y :: insert_by_created e l'
  end.

Definition sort_by_created (q : list entry) : list entry :=
  fold_left (fun acc e => insert_by_created e acc) q [].

(** The [while pending_queue and _running_count() < MAX_CONCURRENT] loop;
    the list argument is the (sorted) queue. *)
Fixpoint drain_loop (q : list entry) (s : sched) : sched :=
  match q with
  | [] => set_pending_queue [] s
  | e :: q' =>
      if _running_count s <? MAX_CONCURRENT then
        let s1 := set_pending_queue q' s in
        let s2 := update_record (task_id e)
                    (fun r => mkRec Running stage_dequeued) s1 in
        drain_loop q' (_start_task (task_id e) (config e) s2)
      else set_pending_queue q s
  end.

Definition drain_queue (s : sched) : sched :=
  match pending_queue s with
  | [] => s
  | _ => drain_loop (sort_by_created (pending_queue s)) (set_pending_queue (sort_by_created (pending_queue s)) s)
  end.

(** [remove_from_queue]: returns whether an entry was found. *)
Definition remove_from_queue (tid : pystr) (s : sched) : bool * sched :=
  let new_q := List.filter (fun e => negb (bool_decide (task_id e = tid))) (pending_queue s) in
  let removed := bool_decide (length new_q <> length (pending_queue s)) in
  if removed then (true, set_pending_queue new_q s) else (false, s).

(** [schedule_translation(task_id, config, created_at_iso)]; [now] is
    [datetime.now().isoformat()], used when [created_at_iso] is falsy. *)
Definition schedule_translation (tid : pystr) (cfg : Z) (created_at_iso now : pystr)
    (s : sched) : status * sched :=
  let c := match created_at_iso with [] => now | _ => created_at_iso end in
  if _running_count s <? MAX_CONCURRENT then
    let s1 := update_record tid
                (fun r => mkRec Running (match stage_of r with [] => stage_init | st => st end)) s in
    (Running, _start_task tid cfg s1)
  else
    let s1 := update_record tid (fun r => mkRec Queued stage_queued) s in
    (Queued, set_pending_queue (pending_queue s1 ++ [mkEntry c tid cfg]) s1).

(** [start_translation_service] after building the config: register the
    record, schedule, then [drain_queue()]. *)
Definition start_translation_service (tid : pystr) (cfg : Z) (created now : pystr)
    (s : sched) : status * sched :=
  let r := mkRec Queued stage_init in
  let s0 := mkSched (<[tid := r]> (active_translations s)) (active_tasks s)
                    (pending_queue s) (<[tid := r]> (history s)) in
  let '(st, s1) := schedule_translation tid cfg created now s0 in
  (st, drain_queue s1).

(** The end of [run_translation]: the final status is recorded, then the
    [finally] block pops the task and drains the queue. *)
Definition finish_translation (tid : pystr) (final : status) (s : sched) : sched :=
  let s1 := update_record tid (fun r => mkRec final (stage_of r)) s in
  drain_queue (set_active_tasks (delete tid (active_tasks s1)) s1).

(** [cancel_task(task_id)]: [task.cancel()] only requests cancellation;
    the task leaves [active_tasks] in its own [finally] block. *)
Definition cancel_task (tid : pystr) (s : sched) : bool * sched :=
  match active_tasks s !! tid with
  | Some t =>
      let s1 := set_active_tasks (<[tid := mkTask (task_config t) true]> (active_tasks s)) s in
      (true, drain_queue s1)
  | None => (false, s)
  end.

(** The operations that touch the scheduler state. *)
Inductive op :=
  | OpSubmit (tid : pystr) (cfg : Z) (created now : pystr)
  | OpSchedule (tid : pystr) (cfg : Z) (created now : pystr)
  | OpDrain
  | OpFinish (tid : pystr) (final : status)
  | OpCancel (tid : pystr)
  | OpRemove (tid : pystr).

Definition step (o : op) (s : sched) : sched :=
  match o with
  | OpSubmit tid cfg c n => snd (start_translation_service tid cfg c n s)
  | OpSchedule tid cfg c n => snd (schedule_translation tid cfg c n s)
  | OpDrain => drain_queue s
  | OpFinish tid st => finish_translation tid st s
  | OpCancel tid => snd (cancel_task tid s)
  | OpRemove tid => snd (remove_from_queue tid s)
  end.

Definition run (ops : list op) (s : sched) : sched := fold_left (fun s o => step o s) ops s.

End WithCap.

(** [list_tasks] in [app/routers/tasks.py]: [queue_index_map = {tid: idx + 1
    for idx, (_, tid, _) in enumerate(sorted_q)}], later indices
    overwriting earlier ones for a repeated id. *)
Fixpoint index_map_from (idx : Z) (l : list entry) (m : gmap pystr Z) : gmap pystr Z :=
  match l with
  | [] => m
  | e :: l' => index_map_from (idx + 1) l' (<[task_id e := idx + 1]> m)
  end.

Definition queue_index_map (q : list entry) : gmap pystr Z :=
  index_map_from 0 (sort_by_created q) ∅.

(** The [queue_position] injected for a listed task: the map entry when its
    status is [queued], [None] otherwise. *)
Definition queue_position (q : list entry) (st : status) (tid : pystr) : option Z :=
  match st with
  | Queued => queue_index_map q !! tid
  | _ => None
  end.

End Scheduler.

(** ** Module [Layout]: [_remove_fully_contained_boxes] in
    [core/image_translate.py] *)

Module Layout.

(** A layout detection: [box.xyxy] (floats, here rationals) and
    [box.cls]. *)
Record box := mkBox { bx0 : Q; by0 : Q; bx1 : Q; by1 : Q; cls : Z }.

Definition _area (b : box) : Q :=
  Qmax 0 ((bx1 b - bx0 b) * (by1 b - by0 b)).

Definition _contains (tolerance : Q) (outer inner : box) : bool :=
  Qle_bool (bx0 outer - tolerance) (bx0 inner) &&
  Qle_bool (by0 outer - tolerance) (by0 inner) &&
  Qle_bool (bx1 inner) (bx1 outer + tolerance) &&
  Qle_bool (by1 inner) (by1 outer + tolerance).

(** [sorted(list(boxes), key=_area, reverse=True)]: stable, so boxes of
    equal area keep their input order. *)
Fixpoint insert_by_area (b : box) (l : list box) : list box :=
  match l with
  | [] => [b]
  | y :: l' => if Qltb (_area y) (_area b) then b :: y :: l' else y :: insert_by_area b l'
  end.

Definition sort_by_area_desc (boxes : list box) : list box :=
  fold_left (fun acc b => insert_by_area b acc) boxes [].

(** The [for b in sorted_boxes] loop over the kept list. *)
Fixpoint keep_loop (tolerance : Q) (kept : list box) (l : list box) : list box :=
  match l with
  | [] => kept
  | b :: l' =>
      if existsb (fun k => _contains tolerance k b) kept then keep_loop tolerance kept l'
      else keep_loop tolerance (kept ++ [b]) l'
  end.

Definition _remove_fully_contained_boxes (boxes : list box) (tolerance : Q) : list box :=
  keep_loop tolerance [] (sort_by_area_desc boxes).

End Layout.

(** ** Module [FontFit]: [calculate_auto_font_size] in
    [core/image_translate.py] *)

Module FontFit.

(** One probe of the binary search: whether the text fits at size [mid].
    [get_font] returns a font on every path (a TrueType font, the default
    font or Pillow's built-in one), so the [font is None] branch is dead
    and not modelled. *)
Definition fits_at (text_direction : pystr) (N : Z) (W H : Q) (mid : Z) : bool :=
  let c_w : Q := 1%Q in
  let l_h : Q := (105 # 100)%Q in
  let avg_char_width : Q := (inject_Z mid * c_w)%Q in
  let avg_char_height : Z := mid in
  if bool_decide (text_direction = pys "horizontal") then
    let chars_per_line :=
      if Qltb 0 avg_char_width then Z.max 1 (py_int (W / avg_char_width)%Q) else N in
    let lines_needed := if 0 <? chars_per_line then ceil_div N chars_per_line else N in
    let total_height_needed := (inject_Z (lines_needed * mid) * l_h)%Q in
    Qle_bool total_height_needed H
  else
    let chars_per_column :=
      if 0 <? avg_char_height then Z.max 1 (py_int (H / inject_Z avg_char_height)%Q) else N in
    let columns_needed := if 0 <? chars_per_column then ceil_div N chars_per_column else N in
    let total_width_needed := (inject_Z (columns_needed * mid) * l_h)%Q in
    Qle_bool total_width_needed W.

(** [while low <= high: mid = (low + high) // 2; if mid == 0: break; ...];
    each round shrinks [high - low], so [fuel = max_size - min_size + 1]
    rounds suffice. *)
Fixpoint search (fits : Z -> bool) (fuel : nat) (low high best_size : Z) : Z :=
  match fuel with
  | O => best_size
  | S fuel' =>
      if low <=? high then
        let mid := (low + high) / 2 in
        if mid =? 0 then best_size
        else if fits mid then search fits fuel' (mid + 1) high mid
        else search fits fuel' low (mid - 1) best_size
      else best_size
  end.

Definition calculate_auto_font_size (text : pystr) (bubble_width bubble_height : Z)
    (text_direction : pystr) (min_size max_size : Z) (padding_ratio : Q) : Z :=
  if bool_decide (text = []) || bool_decide (py_strip text = [])
     || (bubble_width <=? 0) || (bubble_height <=? 0) then 30
  else
    let W0 := (inject_Z bubble_width * padding_ratio)%Q in
    let H0 := (inject_Z bubble_height * padding_ratio)%Q in
    let N := Z.of_nat (length text) in
    let '(W, H) := if bool_decide (text_direction = pys "vertical") then (H0, W0) else (W0, H0) in
    let best_size := search (fits_at text_direction N W H)
                       (Z.to_nat (max_size - min_size + 1)) min_size max_size min_size in
    Z.max min_size best_size.

(** The defaults used by [translate_image]: [min_size=12], [max_size=60],
    [padding_ratio=1.0]. *)
Definition font_size_default (text : pystr) (w h : Z) (dir : pystr) : Z :=
  calculate_auto_font_size text w h dir 12 60 1%Q.

End FontFit.

(** ** Module [Composer]: OCR line grouping and smart line composition in
    [core/image_translate.py] *)

Module Composer.

(** A normalised OCR item [{"text", "bbox"}] (integer bbox). *)
Record item := mkItem { text : pystr; x0 : Z; y0 : Z; x1 : Z; y1 : Z }.

(** [(x0, y0, x1, y1)] of a line, stored as [_line_bbox]. *)
Record bbox := mkBBox { lx0 : Z; ly0 : Z; lx1 : Z; ly1 : Z }.

(** An item after [_group_items_into_lines] has set [_line_bbox]. *)
Record litem := mkLItem { it : item; line_bbox : bbox }.

(** A stable insertion sort, as Python's [sorted]/[list.sort]. *)
Fixpoint ins_by {A} (lt : A -> A -> bool) (x : A) (l : list A) : list A :=
  match l with
  | [] => [x]
  | y :: l' => if lt x y then x :: y :: l' else y :: ins_by lt x l'
  end.

Definition sort_by {A} (lt : A -> A -> bool) (l : list A) : list A :=
  fold_left (fun acc x => ins_by lt x acc) l [].

(** [statistics.median] of a non-empty list. *)
Definition median (l : list Q) : Q :=
  let s := sort_by Qltb l in
  let n := length s in
  if Nat.odd n then nth (n / 2) s 0%Q
  else ((nth (n / 2 - 1) s 0 + nth (n / 2) s 0) / 2)%Q.

(** [statistics.fmean] of a non-empty list. *)
Definition fmean (l : list Q) : Q :=
  (fold_right Qplus 0 l / inject_Z (Z.of_nat (length l)))%Q.

Definition item_height (d : item) : Z := Z.max 1 (y1 d - y0 d).
Definition item_cy (d : item) : Q := (inject_Z (y0 d + y1 d) / 2)%Q.

(** [key=lambda d: (d["_cy"], d["_x0"])] compared as Python tuples. *)
Definition cy_x0_lt (a b : item) : bool :=
  Qltb (item_cy a) (item_cy b) || (Qeq_bool (item_cy a) (item_cy b) && (x0 a <? x0 b)).

(** Place an item into the first line whose mean centre is within the
    threshold, else open a new line. *)
Fixpoint place (threshold : Q) (d : item) (lines : list (list item)) : list (list item) :=
  match lines with
  | [] => [[d]]
  | ln :: rest =>
      if Qle_bool (Qabs (item_cy d - fmean (map item_cy ln))) threshold then (ln ++ [d]) :: rest
      else ln :: place threshold d rest
  end.

Definition list_min (l : list Z) (d : Z) : Z := fold_left Z.min l (hd d l).
Definition list_max (l : list Z) (d : Z) : Z := fold_left Z.max l (hd d l).

Definition finish_line (ln : list item) : list litem :=
  let ln' := sort_by (fun a b => x0 a <? x0 b) ln in
  let bb := mkBBox (list_min (map x0 ln') 0) (list_min (map y0 ln') 0)
                   (list_max (map x1 ln') 0) (list_max (map y1 ln') 0) in
  map (fun d => mkLItem d bb) ln'.

Definition _group_items_into_lines (items : list item) : list (list litem) :=
  match items with
  | [] => []
  | _ =>
      let items_sorted := sort_by cy_x0_lt items in
      let h_med := median (map (fun d => inject_Z (item_height d)) items_sorted) in
      let threshold := Qmax 4 (h_med * (6 # 10)) in
      let lines := fold_left (fun lines d => place threshold d lines) items_sorted [] in
      map finish_line lines
  end.

(** Character classes and sets of the module. *)
Definition _SENTENCE_END_PUNCT : list Z := [0x2e; 0x21; 0x3f; 0x3002; 0xff01; 0xff1f; 0xff1b; 0x3b; 0x3a].
Definition _HYPHENS : list Z := [0x2d; 0x2010; 0x2011; 0x2013].
Definition _BULLETS : list Z := [0x2022; 0xb7; 0x2d; 0x2a; 0x25e6; 0x25aa; 0x2023; 0x29bf].

(** [s in S] for a set [S] of one-character strings. *)
Definition in_set (s : pystr) (S : list Z) : bool :=
  match s with [c] => existsb (Z.eqb c) S | _ => false end.

(** [s in T] for a string [T] and [s] of length at most one: substring
    test, so the empty string is always in. *)
Definition in_str (s : pystr) (T : list Z) : bool :=
  match s with [] => true | [c] => existsb (Z.eqb c) T | _ => false end.

(** [s[-1:]] and [s[:1]]. *)
Definition last1 (s : pystr) : pystr := match rev s with c :: _ => [c] | [] => [] end.
Definition first1 (s : pystr) : pystr := firstn 1 s.

Definition is_ascii_letter (c : Z) : bool := ((65 <=? c) && (c <=? 90)) || ((97 <=? c) && (c <=? 122)).

(** [re.match(r"^[A-Za-z]", s)] *)
Definition starts_with_letter (s : pystr) : bool :=
  match s with c :: _ => is_ascii_letter c | [] => false end.

(** [re.search(r"[一-鿿㐀-䶿぀-ヿ가-힯]", s)] *)
Definition is_cjk_char (c : Z) : bool :=
  ((0x4e00 <=? c) && (c <=? 0x9fff)) || ((0x3400 <=? c) && (c <=? 0x4dbf)) ||
  ((0x3040 <=? c) && (c <=? 0x30ff)) || ((0xac00 <=? c) && (c <=? 0xd7af)).
Definition is_cjk_text (s : pystr) : bool := existsb is_cjk_char s.

(** [re.match(r"^[A-Za-z0-9'’]+$", s)]; [$] also matches before a final
    newline. *)
Definition wordy_char (c : Z) : bool :=
  is_ascii_letter c || ((48 <=? c) && (c <=? 57)) || (c =? 39) || (c =? 0x2019).
Definition is_wordy (s : pystr) : bool :=
  let body := match rev s with 10 :: r => rev r | _ => s end in
  negb (bool_decide (body = [])) && forallb wordy_char body.

(** [re.match(r"^\s*([\-\*•])\s+", s)] *)
Definition bullet_regex (s : pystr) : bool :=
  match py_lstrip s with
  | c :: d :: _ => ((c =? 0x2d) || (c =? 0x2a) || (c =? 0x2022)) && py_isspace d
  | _ => false
  end.

(** [(lang_in or "").lower() in {"zh", "zh-cn", "zh-tw", "ja", "ko"}]; the
    language code is lower-cased on ASCII letters. *)
Definition ascii_lower (c : Z) : Z := if (65 <=? c) && (c <=? 90) then c + 32 else c.
Definition is_cjk_lang (lang_in : option pystr) : bool :=
  let l := map ascii_lower (default [] lang_in) in
  existsb (fun k => bool_decide (l = k))
    [pys "zh"; pys "zh-cn"; pys "zh-tw"; pys "ja"; pys "ko"].

(** The [tuning] dict: each key may be absent; [None] when not a dict. *)
Record tuning_dict := mkTuning {
  t_para_gap : option Q; t_indent : option Q; t_word_gap : option Q }.

Definition para_gap_multiplier (t : option tuning_dict) : Q :=
  match t with Some d => default (12 # 10) (t_para_gap d) | None => 12 # 10 end.
Definition indent_multiplier (t : option tuning_dict) : Q :=
  match t with Some d => default (8 # 10) (t_indent d) | None => 8 # 10 end.
Definition word_gap_multiplier (t : option tuning_dict) : Q :=
  match t with Some d => default (3 # 10) (t_word_gap d) | None => 3 # 10 end.

(** [s.rstrip(chars)] for a [chars] of length at most one ([rstrip] of
    the empty string strips nothing). *)
Definition rstrip_str (chars s : pystr) : pystr :=
  match chars with [c] => py_rstrip_char c s | _ => s end.

(** The inner loop of [compose_single_line], from the second token on;
    [out_rev] is [out_parts] reversed (its head is [out_parts[-1]]). *)
Fixpoint single_line_loop (gap_threshold : Q) (prev : item) (rest : list item)
    (out_rev : list pystr) : list pystr :=
  match rest with
  | [] => out_rev
  | cur :: rest' =>
      let cur_text := py_strip (text cur) in
      let prev_text := py_strip (text prev) in
      let prev_last := match out_rev with o :: _ => last1 o | [] => [] end in
      let cur_first := first1 cur_text in
      let gap := x0 cur - x1 prev in
      let out' :=
        if in_set prev_last _HYPHENS && starts_with_letter cur_first then
          match out_rev with
          | o :: os => (rstrip_str prev_last o ++ cur_text) :: os
          | [] => [cur_text]
          end
        else if in_str cur_first [0x2c; 0x2e; 0x3b; 0x3a; 0x21; 0x3f; 0x29]
                || in_set cur_first _SENTENCE_END_PUNCT then cur_text :: out_rev
        else if in_str prev_last [0x28; 0x5b; 0x7b] || bool_decide (prev_last = [0x201c])
        then cur_text :: out_rev
        else if is_wordy prev_text && is_wordy cur_text && Qle_bool (inject_Z gap) gap_threshold
        then cur_text :: out_rev
        else (32 :: cur_text) :: out_rev in
      single_line_loop gap_threshold cur rest' out'
  end.

Definition compose_single_line (tuning : option tuning_dict) (cjk_lang : bool)
    (ln : list litem) : pystr :=
  let tokens := filter (fun d => negb (bool_decide (text d = []))) (map it ln) in
  match tokens with
  | [] => []
  | t0 :: trest =>
      let raw_join := concat (map (fun t => py_strip (text t)) tokens) in
      if cjk_lang || is_cjk_text raw_join then raw_join
      else
        let heights := map (fun d => inject_Z (Z.max 1 (y1 d - y0 d))) tokens in
        let h_med_line := median heights in
        let gap_threshold := Qmax 1 (h_med_line * word_gap_multiplier tuning) in
        concat (rev (single_line_loop gap_threshold t0 trest [py_strip (text t0)]))
  end.

(** [ln[0]["_line_bbox"]]; [None] on an empty line (IndexError). *)
Definition head_bbox (ln : list litem) : option bbox :=
  match ln with d :: _ => Some (line_bbox d) | [] => None end.

(** The parameters of the cross-line loop. *)
Record line_ctx := mkCtx {
  c_h_med : Q; c_para_gap_threshold : Q; c_indent_multiplier : Q; c_cjk_lang : bool }.

(** The paragraph-break test [gap >= para_gap_threshold or has_bullet or
    indent > h_med * indent_multiplier]. *)
Definition para_break (ctx : line_ctx) (curr_bbox next_bbox : bbox)
    (next_line_text : pystr) : bool :=
  let gap := ly0 next_bbox - ly1 curr_bbox in
  let next_text := py_lstrip next_line_text in
  let next_first_char := first1 next_text in
  let indent := lx0 next_bbox - lx0 curr_bbox in
  let has_bullet := in_set next_first_char _BULLETS || bullet_regex next_text in
  Qle_bool (c_para_gap_threshold ctx) (inject_Z gap) || has_bullet
  || Qltb (c_h_med ctx * c_indent_multiplier ctx) (inject_Z indent).

(** One iteration [i] of the cross-line loop for a line that has a
    successor: the parts it leaves in [result_parts] (its own [lt], possibly
    rewritten, followed by what it appends). *)
Definition line_step (ctx : line_ctx) (curr_bbox : bbox) (lt : pystr)
    (next_bbox : bbox) (next_line_text : pystr) : list pystr :=
  let next_text := py_lstrip next_line_text in
  let curr_last_char := match lt with [] => [] | _ => last1 (py_rstrip lt) end in
  if para_break ctx curr_bbox next_bbox next_line_text then [lt; [10]]
  else if in_set curr_last_char _HYPHENS && negb (bool_decide (next_text = []))
          && starts_with_letter next_text
  then [rstrip_str curr_last_char lt; next_text]
  else if in_set curr_last_char _SENTENCE_END_PUNCT then [lt; [10]]
  else if c_cjk_lang ctx || is_cjk_text (lt ++ next_text) then [lt; []]
  else [lt; [32]].

(** The cross-line loop over [(line_bbox, line_text)] pairs. *)
Fixpoint result_parts (ctx : line_ctx) (ls : list (bbox * pystr)) : list pystr :=
  match ls with
  | [] => []
  | [(_, lt)] => [lt]
  | (cb, lt) :: ((nb, nt) :: _) as rest => line_step ctx cb lt nb nt ++ result_parts ctx rest
  end.

(** [h_med], the median line height, from the lines' bounding boxes. *)
Definition lines_h_med (bbs : list bbox) : Q :=
  median (map (fun b => inject_Z (Z.max 1 (ly1 b - ly0 b))) bbs).

Definition lines_ctx (bbs : list bbox) (lang_in : option pystr)
    (tuning : option tuning_dict) : line_ctx :=
  let h_med := lines_h_med bbs in
  mkCtx h_med (Qmax 8 (h_med * para_gap_multiplier tuning))
        (indent_multiplier tuning) (is_cjk_lang lang_in).

Definition _compose_text_with_linebreaks (lines : list (list litem)) (lang_in : option pystr)
    (tuning : option tuning_dict) : option pystr :=
  match lines with
  | [] => Some []
  | _ =>
      match mapM head_bbox lines with
      | None => None
      | Some bbs =>
          let ctx := lines_ctx bbs lang_in tuning in
          let line_texts := map (compose_single_line tuning (is_cjk_lang lang_in)) lines in
          Some (concat (result_parts ctx (zip bbs line_texts)))
      end
  end.

(** The smart path of [_extract_texts] on normalised, non-empty items
    ([smart_breaks] and not [simple_mode]). *)
Definition extract_texts_smart (items : list item) (lang_in : option pystr)
    (tuning : option tuning_dict) : option pystr :=
  option_map py_strip (_compose_text_with_linebreaks (_group_items_into_lines items) lang_in tuning).

End Composer.

(** ** Module [Pipeline]: [translate_image] in [core/image_translate.py]
    and [create_mask], [clean], [telea_clean], [simple_fill_clean] in
    [core/image_remover.py], on RGB images *)

Module Pipeline.

Definition pixel : Type := (Z * Z * Z)%type.
Definition black : pixel := (0, 0, 0).
Definition white : pixel := (255, 255, 255).

(** A raster as numpy sees it: [height] rows of [width] cells. *)
Record grid (A : Type) := mkGrid { gw : Z; gh : Z; cells : list (list A) }.
Arguments mkGrid {A} _ _ _.
Arguments gw {A} _.
Arguments gh {A} _.
Arguments cells {A} _.

Abbreviation image := (grid pixel).
Abbreviation mask := (grid Z).

Definition at_ {A} (d : A) (g : grid A) (x y : Z) : A :=
  default d (cells g !! Z.to_nat y ≫= fun row => row !! Z.to_nat x).
Definition pix : image -> Z -> Z -> pixel := at_ black.
Definition mpix : mask -> Z -> Z -> Z := at_ 0.

Definition in_dom {A} (g : grid A) (x y : Z) : bool :=
  (0 <=? x) && (x <? gw g) && (0 <=? y) && (y <? gh g).

(** A well-formed raster: [gh] rows of [gw] cells each. *)
Definition wf {A} (g : grid A) : Prop :=
  0 <= gw g /\ 0 <= gh g /\ length (cells g) = Z.to_nat (gh g) /\
  Forall (fun row => length row = Z.to_nat (gw g)) (cells g).

Definition build {A} (W H : Z) (f : Z -> Z -> A) : grid A :=
  mkGrid W H (map (fun y => map (fun x => f x y) (seqZ 0 W)) (seqZ 0 H)).

(** [(x0, y0, x1, y1)] *)
Definition region : Type := (Z * Z * Z * Z)%type.

(** [tuple(int(v) for v in box.xyxy)] *)
Definition region_of (b : Layout.box) : region :=
  (py_int (Layout.bx0 b), py_int (Layout.by0 b), py_int (Layout.bx1 b), py_int (Layout.by1 b)).

Definition in_region (r : region) (x y : Z) : bool :=
  let '(x0, y0, x1, y1) := r in (x0 <=? x) && (x <? x1) && (y0 <=? y) && (y <? y1).

(** [Image.crop]: raises when right < left or lower < upper; pixels
    outside the source are black. *)
Definition crop (img : image) (r : region) : option image :=
  let '(x0, y0, x1, y1) := r in
  if (x1 <? x0) || (y1 <? y0) then None
  else Some (build (x1 - x0) (y1 - y0) (fun i j =>
         if in_dom img (x0 + i) (y0 + j) then pix img (x0 + i) (y0 + j) else black)).

(** [Image.paste(im, box)] with a 4-tuple box: raises unless the sizes
    match; clipped to the destination. *)
Definition paste (dst src : image) (r : region) : option image :=
  let '(x0, y0, x1, y1) := r in
  if negb (gw src =? x1 - x0) || negb (gh src =? y1 - y0) then None
  else Some (build (gw dst) (gh dst) (fun x y =>
         if in_region r x y then pix src (x - x0) (y - y0) else pix dst x y)).

(** [create_mask]: each box of positive size is pasted as a white
    [w x h] block at [(max(0, x1), max(0, y1))]. *)
Definition mask_covers (bx : region) (x y : Z) : bool :=
  let '(x1, y1, x2, y2) := bx in
  let w := Z.max 0 (x2 - x1) in
  let h := Z.max 0 (y2 - y1) in
  (0 <? w) && (0 <? h) && (Z.max 0 x1 <=? x) && (x <? Z.max 0 x1 + w)
  && (Z.max 0 y1 <=? y) && (y <? Z.max 0 y1 + h).

Definition create_mask (W H : Z) (boxes : list region) : mask :=
  build W H (fun x y => if existsb (fun bx => mask_covers bx x y) boxes then 255 else 0).

(** Pixel coordinates in row-major order, as [np.where] lists them. *)
Definition coords (W H : Z) : list (Z * Z) :=
  concat (map (fun y => map (fun x => (x, y)) (seqZ 0 W)) (seqZ 0 H)).

(** The 5x5 kernel of [cv2.dilate], anchored at its centre. *)
Definition kernel5 : list (Z * Z) :=
  concat (map (fun dy => map (fun dx => (dx, dy)) (seqZ (-2) 5)) (seqZ (-2) 5)).

Definition dilated (m : mask) (x y : Z) : bool :=
  existsb (fun '(dx, dy) => in_dom m (x + dx) (y + dy) && (mpix m (x + dx) (y + dy) =? 255)) kernel5.

Definition add_pixel (acc p : pixel) : pixel :=
  let '(a, b, c) := acc in let '(r, g, bl) := p in (a + r, b + g, c + bl).

(** [simple_fill_clean]: the mask pixels get the mean of the boundary
    pixels ([dilated - mask == 255]), truncated to [uint8], or white when
    there is no boundary. *)
Definition simple_fill_clean (img : image) (m : mask) : image :=
  let pts := coords (gw m) (gh m) in
  let mask_pts := filter (fun '(x, y) => mpix m x y =? 255) pts in
  match mask_pts with
  | [] => img
  | _ =>
      let boundary := filter (fun '(x, y) => dilated m x y && (mpix m x y =? 0)) pts in
      let fill :=
        match boundary with
        | [] => white
        | _ =>
            let n := Z.of_nat (length boundary) in
            let '(sr, sg, sb) := fold_left (fun acc '(x, y) => add_pixel acc (pix img x y)) boundary (0, 0, 0) in
            (sr / n, sg / n, sb / n)
        end in
      build (gw img) (gh img) (fun x y => if mpix m x y =? 255 then fill else pix img x y)
  end.

(** What [config.translator.translate] gives back. *)
Inductive tr_result :=
| TrStr (s : pystr)
| TrNonStr
| TrRaise.

Section Pipeline.

(** [config.doc_layout_model.predict(np_image)[0].boxes]; [None] when it
    raises. *)
Variable layout : image -> option (list Layout.box).
(** [get_ocr_engine()(region_image)] followed by [_extract_texts]; [None]
    when it raises. *)
Variable ocr : image -> option pystr.
Variable translate : pystr -> tr_result.
(** [cv2.inpaint(image, mask, 3, cv2.INPAINT_TELEA)]; [None] when it
    raises. *)
Variable inpaint : image -> mask -> option image.
(** [draw_multiline_text_horizontal] at the region with the given font
    size. *)
Variable draw_text : image -> region -> pystr -> Z -> image.

Definition telea_clean (img : image) (m : mask) : image :=
  match inpaint img m with Some r => r | None => simple_fill_clean img m end.

Definition clean (img : image) (boxes : list region) : image :=
  telea_clean img (create_mask (gw img) (gh img) boxes).

(** Drop classes 2, 8, 9, then the containment filter with tolerance 2. *)
Definition surviving_boxes (result : list Layout.box) : list Layout.box :=
  Layout._remove_fully_contained_boxes
    (filter (fun b => negb (existsb (Z.eqb (Layout.cls b)) [2; 8; 9])) result) 2.

Record loop_state := mkState {
  st_image : image;
  regions_to_clean : list region;
  draw_jobs : list (region * pystr) }.

(** One round of [for box in boxes]; [rec] is the recursive
    [translate_image], giving the result and the input after the call.
    [None] is an exception escaping [translate_image]. *)
Definition process_box (rec : image -> option (image * image)) (st : loop_state)
    (b : Layout.box) : option loop_state :=
  let r := region_of b in
  let img := st_image st in
  if Layout.cls b =? 5 then
    match crop img r with
    | None => None
    | Some region_image =>
        match rec region_image with
        | None => None
        | Some (final_image, _) =>
            match paste img final_image r with
            | None => None
            | Some img' => Some (mkState img' (regions_to_clean st) (draw_jobs st))
            end
        end
    end
  else
    match crop img r with
    | None => Some st
    | Some region_image =>
        match ocr region_image with
        | None => Some st
        | Some src_text =>
            let candidate := if bool_decide (src_text = []) then TrStr [] else translate src_text in
            match candidate with
            | TrStr translated_text =>
                if bool_decide (translated_text = src_text) then Some st
                else Some (mkState img (regions_to_clean st ++ [r])
                                   (draw_jobs st ++ [(r, translated_text)]))
            | _ => Some st
            end
        end
    end.

Fixpoint box_loop (rec : image -> option (image * image)) (st : loop_state)
    (bs : list Layout.box) : option loop_state :=
  match bs with
  | [] => Some st
  | b :: bs' =>
      match process_box rec st b with
      | None => None
      | Some st' => box_loop rec st' bs'
      end
  end.

Definition draw_one (acc : image) (job : region * pystr) : image :=
  let '(r, t) := job in
  let '(x1, y1, x2, y2) := r in
  if bool_decide (t = []) then acc
  else draw_text acc r t (FontFit.font_size_default t (x2 - x1) (y2 - y1) (pys "horizontal")).

(** After the loop: a copy when nothing is to be cleaned, else clean and
    draw. *)
Definition finish (st : loop_state) : image :=
  match regions_to_clean st with
  | [] => st_image st
  | rs => fold_left draw_one (draw_jobs st) (clean (st_image st) rs)
  end.

(** [translate_image(image, config)]: the returned image and the input
    image after the call (table regions are pasted into it in place).
    [fuel] bounds the nesting of table regions (Python's recursion
    limit); [None] is an exception escaping the call. *)
Fixpoint translate_image (fuel : nat) (img : image) : option (image * image) :=
  match fuel with
  | O => None
  | S fuel' =>
      match layout img with
      | None => Some (img, img)
      | Some result =>
          match box_loop (translate_image fuel') (mkState img [] []) (surviving_boxes result) with
          | None => None
          | Some st => Some (finish st, st_image st)
          end
      end
  end.

(** A non-table region whose OCR raises, or whose translator raises or
    returns a non-string on its non-empty source text. *)
Definition ocr_or_translator_fails (img : image) (b : Layout.box) : Prop :=
  exists c, crop img (region_of b) = Some c /\
    (ocr c = None \/
     exists src, ocr c = Some src /\ src <> [] /\ (translate src = TrRaise \/ translate src = TrNonStr)).

(** A non-table region needs no repaint: whenever OCR and translation
    succeed, the translated text equals the source text. *)
Definition region_unchanged (img : image) (b : Layout.box) : Prop :=
  forall c src t, crop img (region_of b) = Some c -> ocr c = Some src -> src <> [] ->
    translate src = TrStr t -> t = src.

(** No surviving region, down through table regions, needs repaint. *)
Inductive no_repaint : image -> Prop :=
| no_repaint_layout_raises img : layout img = None -> no_repaint img
| no_repaint_regions img result :
    layout img = Some result ->
    (forall b c, In b (surviving_boxes result) -> Layout.cls b = 5 ->
       crop img (region_of b) = Some c -> no_repaint c) ->
    (forall b, In b (surviving_boxes result) -> Layout.cls b <> 5 -> region_unchanged img b) ->
    no_repaint img.

End Pipeline.

End Pipeline.

(** ** Module [TasksRouter]: [get_client_ip] and [delete_tasks] in
    [app/routers/tasks.py] *)

Module TasksRouter.
Import Scheduler.

(** [s.split(",")[0]]: the text before the first comma. *)
Fixpoint before_comma (s : pystr) : pystr :=
  match s with
  | [] => []
  | c :: s' => if c =? 44 then [] else c :: before_comma s'
  end.

(** The requester IP read by [list_tasks], [get_client_ip] and
    [delete_tasks]: [forwarded] is the [X-Forwarded-For] header ([[]] when
    it is absent or empty, both falsy) and [client] is
    [request.client.host] when [request.client] is set. *)
Definition requester_ip (forwarded : pystr) (client : option pystr) : pystr :=
  match forwarded with
  | [] => default [] client
  | _ => py_strip (before_comma forwarded)
  end.

(** [fname[:-4] if fname.endswith(".pdf") else fname] *)
Definition file_id (fname : pystr) : pystr :=
  if bool_decide (drop (length fname - 4) fname = pys ".pdf")
  then take (length fname - 4) fname else fname.

(** The authorisation test of [delete_tasks]; [provided_token] is the
    [X-Owner-Token] header ([[]] when absent), [data_token] and [owner_ip]
    are the stored values ([[]] when missing). *)
Definition authorized (require_owner_token : bool)
    (provided_token data_token owner_ip requester : pystr) : bool :=
  if negb (bool_decide (provided_token = [])) && negb (bool_decide (data_token = []))
     && bool_decide (provided_token = data_token) then true
  else if require_owner_token then false
  else negb (bool_decide (owner_ip = [])) && negb (bool_decide (requester = []))
       && bool_decide (owner_ip = requester).

(** A call that returns a value or raises an exception with message
    [str(e)]. *)
Inductive outcome (A : Type) := Ok (a : A) | Raised (msg : pystr).
Arguments Ok {A} _.
Arguments Raised {A} _.

(** The fields of [get_task_full(tid)] that [delete_tasks] reads:
    [data["owner_ip"]], [data["owner_token"]] and [filename] ([[]] when
    missing or falsy). *)
Record task_full := mkFull { tf_owner_ip : pystr; tf_owner_token : pystr; tf_filename : pystr }.

Record response := mkResp {
  deleted : list pystr; cancelled : list pystr; not_found : list pystr;
  errors : gmap pystr pystr }.

Definition add_deleted (tid : pystr) (r : response) : response :=
  mkResp (deleted r ++ [tid]) (cancelled r) (not_found r) (errors r).
Definition add_cancelled (tid : pystr) (r : response) : response :=
  mkResp (deleted r) (cancelled r ++ [tid]) (not_found r) (errors r).
Definition add_not_found (tid : pystr) (r : response) : response :=
  mkResp (deleted r) (cancelled r) (not_found r ++ [tid]) (errors r).
Definition set_error (tid msg : pystr) (r : response) : response :=
  mkResp (deleted r) (cancelled r) (not_found r) (<[tid := msg]> (errors r)).

(** ["权限不足：仅上传者可删除该任务"], ["取消运行任务失败"], ["已取消"] *)
Definition msg_denied : pystr :=
  [0x6743; 0x9650; 0x4e0d; 0x8db3; 0xff1a; 0x4ec5; 0x4e0a; 0x4f20; 0x8005; 0x53ef; 0x5220;
   0x9664; 0x8be5; 0x4efb; 0x52a1].
Definition msg_cancel_failed : pystr :=
  [0x53d6; 0x6d88; 0x8fd0; 0x884c; 0x4efb; 0x52a1; 0x5931; 0x8d25].
Definition stage_cancelled : pystr := [0x5df2; 0x53d6; 0x6d88].

(** [active_translations.setdefault(tid, {}).update({"status": "cancelled",
    "stage": "已取消", ...})] *)
Definition mark_cancelled (tid : pystr) (s : sched) : sched :=
  mkSched (<[tid := mkRec Cancelled stage_cancelled]> (active_translations s))
          (active_tasks s) (pending_queue s) (history s).

(** [active_translations.pop(tid, None)] *)
Definition pop_translation (tid : pystr) (s : sched) : sched :=
  mkSched (delete tid (active_translations s)) (active_tasks s) (pending_queue s) (history s).

Section Delete.

Variable MAX_CONCURRENT : Z.
Variable DOWNLOAD_REQUIRE_OWNER_TOKEN : bool.
(** The history database: [get_task_full(tid)] ([None] for a missing task),
    [(get_upload_info(fid) or {}).get("user_ip") or ""] (its exceptions are
    caught and give [""]) and [delete_history(tid)]. The websocket, the
    output folder and the database rows are outside the modelled state. *)
Variable get_task_full : pystr -> outcome (option task_full).
Variable get_upload_ip : pystr -> pystr.
Variable delete_history : pystr -> outcome bool.

(** One round of [for tid in request.task_ids]. *)
Definition delete_one (requester provided : pystr) (acc : sched * response) (tid : pystr)
    : sched * response :=
  let '(s, r) := acc in
  match get_task_full tid with
  | Raised m => (s, set_error tid m r)
  | Ok None => (s, add_not_found tid r)
  | Ok (Some tf) =>
      let owner_ip := match tf_owner_ip tf with
                      | [] => get_upload_ip (file_id (tf_filename tf))
                      | o => o
                      end in
      if negb (authorized DOWNLOAD_REQUIRE_OWNER_TOKEN provided (tf_owner_token tf) owner_ip requester)
      then (s, set_error tid msg_denied r)
      else
        let '(s1, r1) :=
          if bool_decide (is_Some (active_tasks s !! tid)) then
            let '(ok, s') := cancel_task MAX_CONCURRENT tid s in
            if ok then (s', add_cancelled tid r) else (s', set_error tid msg_cancel_failed r)
          else
            let '(removed, s') := remove_from_queue tid s in
            if removed then (mark_cancelled tid s', r) else (s', r) in
        let s2 := pop_translation tid s1 in
        match delete_history tid with
        | Raised m => (s2, set_error tid m r1)
        | Ok true => (s2, add_deleted tid r1)
        | Ok false => (s2, add_not_found tid r1)
        end
  end.

(** [delete_tasks]: the requester IP and the [X-Owner-Token] header are
    read once, then each requested id is processed in order. *)
Definition delete_tasks (forwarded : pystr) (client : option pystr) (provided : pystr)
    (task_ids : list pystr) (s : sched) : sched * response :=
  fold_left (delete_one (requester_ip forwarded client) provided) task_ids
            (s, mkResp [] [] [] ∅).

End Delete.

End TasksRouter.

(** ** Module [TextLayout]: the line layout and the unrotated drawing of
    [draw_multiline_text_horizontal] in [core/image_translate.py] *)

Module TextLayout.

Record line_meta := mkLine { chars : list (Z * Z); width : Z }.

Section Layout.

(** [bbox[2] - bbox[0]] of [cf.getbbox(ch)], [cf] being the font chosen
    for [ch] (the NotoSans font for [SPECIAL_CHARS], the given font
    otherwise). *)
Variable char_width : Z -> Z.

(** The [for ch in text.replace("\r", "")] loop; [cur] and [cur_w] are
    [current_line_chars] and [current_line_width]. *)
Fixpoint layout_loop (max_width : Z) (text : pystr) (lines : list line_meta)
    (cur : list (Z * Z)) (cur_w : Z) : list line_meta :=
  match text with
  | [] => match cur with [] => lines | _ => lines ++ [mkLine cur cur_w] end
  | ch :: rest =>
      if ch =? 10 then layout_loop max_width rest (lines ++ [mkLine cur cur_w]) [] 0
      else
        let w := char_width ch in
        if cur_w + w <=? max_width then layout_loop max_width rest lines (cur ++ [(ch, w)]) (cur_w + w)
        else layout_loop max_width rest (lines ++ [mkLine cur cur_w]) [(ch, w)] w
  end.

Definition lines_meta (text : pystr) (max_width : Z) : list line_meta :=
  layout_loop max_width (List.filter (fun c => negb (c =? 13)) text) [] [] 0.

(** The characters of one line drawn left to right from [cx]. *)
Fixpoint line_calls (cx cy : Z) (cs : list (Z * Z)) : list (Z * Z * Z) :=
  match cs with
  | [] => []
  | (ch, w) :: cs' => (cx, cy, ch) :: line_calls (cx + w) cy cs'
  end.

Fixpoint lines_calls (x cy line_height : Z) (lms : list line_meta) : list (Z * Z * Z) :=
  match lms with
  | [] => []
  | lm :: lms' => line_calls x cy (chars lm) ++ lines_calls x (cy + line_height) line_height lms'
  end.

(** [draw_multiline_text_horizontal] with [rotation_angle = 0] (as
    [translate_image] calls it): the [draw.text((current_x, current_y), ch)]
    calls, as [(x, y, ch)]; [font_size] is [font.size]. *)
Definition draw_calls (text : pystr) (font_size x y max_width : Z) : list (Z * Z * Z) :=
  match text with
  | [] => []
  | _ =>
      let lm := lines_meta text max_width in
      match lm with
      | [] => []
      | _ =>
          let line_height := font_size + 5 in
          let total_text_height := Z.of_nat (length lm) * line_height in
          let max_line_width := Composer.list_max (map width lm) 0 in
          if (max_line_width <=? 0) || (total_text_height <=? 0) then []
          else lines_calls x y line_height lm
      end
  end.

End Layout.

End TextLayout.

(** ** Module [BBoxParse]: [_bbox_from_any] in [core/image_translate.py] *)

Module BBoxParse.

(** The Python values a bbox is given as (an [np.ndarray] argument is first
    turned into nested lists by [tolist()]). *)
#[warnings="-register-all"]
Inductive pyval :=
| PInt (z : Z)
| PBool (b : bool)
| PFloat (q : Q)
| PStr (s : pystr)
| PList (l : list pyval)
| PTuple (l : list pyval)
| PNone.

Section Parse.

(** [int(s)] of a string; [None] when it raises. *)
Variable int_of_str : pystr -> option Z.

(** [int(v)]; [None] when it raises. *)
Definition py_int_of (v : pyval) : option Z :=
  match v with
  | PInt z => Some z
  | PBool b => Some (if b then 1 else 0)
  | PFloat q => Some (py_int q)
  | PStr s => int_of_str s
  | _ => None
  end.

(** [isinstance(v, (list, tuple))], with the elements. *)
Definition as_seq (v : pyval) : option (list pyval) :=
  match v with PList l | PTuple l => Some l | _ => None end.

(** [isinstance(v, (int, float))]; [bool] is a subclass of [int]. *)
Definition is_number (v : pyval) : bool :=
  match v with PInt _ | PBool _ | PFloat _ => true | _ => false end.

Definition is_point (p : pyval) : bool :=
  match as_seq p with Some pl => (2 <=? length pl)%nat | None => false end.

(** [int(p[0])] and [int(p[1])] of a point. *)
Definition px (p : pyval) : option Z :=
  match as_seq p with Some (a :: _) => py_int_of a | _ => None end.
Definition py (p : pyval) : option Z :=
  match as_seq p with Some (_ :: c :: _) => py_int_of c | _ => None end.

(** [None] stands for both [return None] and an exception caught by the
    outer [except Exception: return None]. *)
Definition _bbox_from_any (b : pyval) : option (Z * Z * Z * Z) :=
  match as_seq b with
  | None => None
  | Some l =>
      if (4 <=? length l)%nat && forallb is_point (take 4 l) then
        match mapM px (take 4 l), mapM py (take 4 l) with
        | Some xs, Some ys =>
            Some (Composer.list_min xs 0, Composer.list_min ys 0,
                  Composer.list_max xs 0, Composer.list_max ys 0)
        | _, _ => None
        end
      else if (4 <=? length l)%nat && forallb is_number (take 4 l) then
        match mapM py_int_of (take 4 l) with
        | Some [a; b; c; d] => Some (a, b, c, d)
        | _ => None
        end
      else None
  end.

End Parse.

End BBoxParse.

(** ** Module [ComposeSimple]: [_compose_text_simple] in
    [core/image_translate.py] *)

Module ComposeSimple.
Import Composer.




End ComposeSimple.


(** * Proofs *)

Module PyFacts.

(** ** Python's string order is a strict total order *)

Lemma str_ltb_irrefl a : str_ltb a a = false.
Proof.
  induction a as [|x a IH]; simpl; [done|].
  rewrite Z.ltb_irrefl, Z.eqb_refl. done.
Qed.

Lemma str_ltb_trans a b c :
  str_ltb a b = true -> str_ltb b c = true -> str_ltb a c = true.
Proof.
  revert b c. induction a as [|x a IH]; intros [|y b] [|z c]; simpl; try done.
  intros H1 H2.
  destruct (Z.ltb_spec x y); destruct (Z.ltb_spec y z);
  destruct (Z.ltb_spec x z); try done; try lia;
  destruct (Z.eqb_spec x y); destruct (Z.eqb_spec y z); try done;
  destruct (Z.eqb_spec x z); try lia; subst; eauto.
Qed.

Lemma str_ltb_total a b :
  str_ltb a b = true \/ a = b \/ str_ltb b a = true.
Proof.
  revert b. induction a as [|x a IH]; intros [|y b]; simpl; auto.
  destruct (Z.ltb_spec x y); auto.
  destruct (Z.ltb_spec y x); [auto|].
  assert (x = y) by lia. subst. rewrite Z.eqb_refl.
  destruct (IH b) as [?|[?|?]]; subst; auto.
Qed.

Lemma str_ltb_asym a b : str_ltb a b = true -> str_ltb b a = false.
Proof.
  intros H. destruct (str_ltb b a) eqn:E; [|done].
  pose proof (str_ltb_trans _ _ _ H E). by rewrite str_ltb_irrefl in *.
Qed.

(** ** Float comparison *)

Lemma Qltb_true a b : Qltb a b = true <-> (a < b)%Q.
Proof.
  unfold Qltb. rewrite negb_true_iff. split; intros H.
  - apply Qnot_le_lt. intros Hle. apply Qle_bool_iff in Hle. congruence.
  - destruct (Qle_bool b a) eqn:E; [|done]. apply Qle_bool_iff in E.
    exfalso. apply (Qlt_not_le _ _ H E).
Qed.

Lemma Qltb_false a b : Qltb a b = false <-> (b <= a)%Q.
Proof.
  unfold Qltb. rewrite negb_false_iff. apply Qle_bool_iff.
Qed.

End PyFacts.

Module SchedulerProofs.
Import PyFacts Scheduler.

Lemma size_insert_le {A} (m : gmap pystr A) k v :
  (size (<[k:=v]> m) <= S (size m))%nat.
Proof. rewrite map_size_insert. destruct (m !! k); simpl; lia. Qed.

Lemma size_delete_le {A} (m : gmap pystr A) k :
  (size (delete k m) <= size m)%nat.
Proof. rewrite map_size_delete. destruct (m !! k); simpl; lia. Qed.

Lemma update_record_tasks tid f s :
  active_tasks (update_record tid f s) = active_tasks s.
Proof. unfold update_record. by destruct (active_translations s !! tid). Qed.

Lemma update_record_pending tid f s :
  pending_queue (update_record tid f s) = pending_queue s.
Proof. unfold update_record. by destruct (active_translations s !! tid). Qed.

Section Cap.
Variable MAX : Z.

Definition within_cap (s : sched) : Prop := _running_count s <= MAX.

Lemma start_task_within tid cfg s :
  _running_count s < MAX -> within_cap (_start_task tid cfg s).
Proof.
  unfold within_cap, _running_count, _start_task; simpl. intros H.
  pose proof (size_insert_le (active_tasks s) tid (mkTask cfg false)). lia.
Qed.

Lemma drain_loop_within q s :
  within_cap s -> within_cap (drain_loop MAX q s).
Proof.
  revert s. induction q as [|e q IH]; intros s Hs; simpl; [done|].
  destruct (_running_count s <? MAX) eqn:Hlt; [|done].
  apply IH, start_task_within. apply Z.ltb_lt in Hlt.
  unfold _running_count in *. by rewrite update_record_tasks.
Qed.

Lemma drain_queue_within s : within_cap s -> within_cap (drain_queue MAX s).
Proof.
  unfold drain_queue. destruct (pending_queue s); [done|].
  intros Hs. by apply drain_loop_within.
Qed.

Lemma schedule_within tid cfg c n s :
  within_cap s -> within_cap (snd (schedule_translation MAX tid cfg c n s)).
Proof.
  unfold schedule_translation. intros Hs.
  destruct (_running_count s <? MAX) eqn:Hlt; simpl.
  - apply start_task_within. apply Z.ltb_lt in Hlt.
    unfold _running_count in *. by rewrite update_record_tasks.
  - unfold within_cap, _running_count in *; simpl. by rewrite update_record_tasks.
Qed.

Lemma step_within o s : within_cap s -> within_cap (step MAX o s).
Proof.
  intros Hs. destruct o as [tid cfg c n|tid cfg c n| |tid st|tid|tid]; simpl.
  - unfold start_translation_service.
    destruct (schedule_translation MAX tid cfg c n _) as [st s1] eqn:Hsch; simpl.
    apply drain_queue_within.
    match type of Hsch with schedule_translation _ _ _ _ _ ?s0 = _ =>
      pose proof (schedule_within tid cfg c n s0 ltac:(exact Hs)) as Hw end.
    by rewrite Hsch in Hw.
  - by apply schedule_within.
  - by apply drain_queue_within.
  - unfold finish_translation. apply drain_queue_within.
    unfold within_cap, _running_count in *; simpl.
    pose proof (size_delete_le (active_tasks (update_record tid (fun r => mkRec st (stage_of r)) s)) tid).
    rewrite update_record_tasks in *. lia.
  - unfold cancel_task. destruct (active_tasks s !! tid) as [t|] eqn:Ht; simpl; [|done].
    apply drain_queue_within.
    unfold within_cap, _running_count in *; simpl.
    rewrite map_size_insert_Some by eauto. done.
  - unfold remove_from_queue. by case_bool_decide.
Qed.

End Cap.

(** Claim C1: for every sequence of scheduler operations (submission,
    bare scheduling, queue drains, job completion with any final status,
    cancellation and queue removal), started from a state within the
    concurrency cap, the number of running jobs (entries of [active_tasks])
    never exceeds [MAX_CONCURRENT]; every intermediate state is the result
    of a prefix of the sequence, itself a sequence. *)
Theorem running_count_never_exceeds_cap (MAX_CONCURRENT : Z) (ops : list op) (s : sched) :
  _running_count s <= MAX_CONCURRENT ->
  _running_count (run MAX_CONCURRENT ops s) <= MAX_CONCURRENT.
Proof.
  revert s. induction ops as [|o ops IH]; intros s Hs; simpl; [done|].
  apply IH. by apply step_within.
Qed.

Lemma running_count_never_exceeds_cap_witness :
  _running_count empty_sched <= 1 /\
  _running_count (run 1 [OpSubmit (pys "a") 0 (pys "t1") []; OpSubmit (pys "b") 1 (pys "t2") [];
                         OpFinish (pys "a") Completed] empty_sched) <= 1.
Proof.
  split; [vm_compute; congruence|].
  apply (running_count_never_exceeds_cap 1). vm_compute. congruence.
Defined.

(** Claim C10: when [task_id] is not in [active_tasks], [cancel_task]
    returns [False] and changes nothing: the pending queue, the job's
    status in [active_translations] and the persisted history are left
    as they were, so a queued job is not removed from the queue. *)
Theorem cancel_task_not_running (MAX_CONCURRENT : Z) (tid : pystr) (s : sched) :
  active_tasks s !! tid = None ->
  cancel_task MAX_CONCURRENT tid s = (false, s) /\
  pending_queue (snd (cancel_task MAX_CONCURRENT tid s)) = pending_queue s /\
  active_translations (snd (cancel_task MAX_CONCURRENT tid s)) !! tid = active_translations s !! tid.
Proof. intros H. unfold cancel_task. by rewrite H. Qed.

Lemma cancel_task_not_running_witness :
  let s := snd (schedule_translation 0 (pys "q") 7 (pys "t") [] 
                  (mkSched {[pys "q" := mkRec Queued []]} ∅ [] ∅)) in
  active_tasks s !! pys "q" = None /\ pending_queue s <> [] /\
  cancel_task 0 (pys "q") s = (false, s).
Proof.
  intros s. split; [vm_compute; reflexivity|]. split; [vm_compute; congruence|].
  apply (cancel_task_not_running 0 (pys "q") s). vm_compute. reflexivity.
Defined.



(** ** The stable sort of [pending_queue] *)

Definition not_before (a b : entry) : Prop :=
  str_ltb (created_at b) (created_at a) = false.

Lemma insert_by_created_In x L z :
  In z (insert_by_created x L) <-> z = x \/ In z L.
Proof.
  induction L as [|y L IH]; simpl; [intuition congruence|].
  destruct (str_ltb (created_at x) (created_at y)); simpl; [intuition congruence|].
  rewrite IH. intuition congruence.
Qed.

Lemma insert_by_created_perm x L : Permutation (insert_by_created x L) (x :: L).
Proof.
  induction L as [|y L IH]; simpl; [done|].
  destruct (str_ltb (created_at x) (created_at y)); [done|].
  etrans; [apply perm_skip, IH|]. apply perm_swap.
Qed.

Lemma sort_by_created_snoc q x :
  sort_by_created (q ++ [x]) = insert_by_created x (sort_by_created q).
Proof. unfold sort_by_created. by rewrite fold_left_app. Qed.

Lemma sort_by_created_perm q : Permutation (sort_by_created q) q.
Proof.
  induction q as [|x q IH] using rev_ind; [done|].
  rewrite sort_by_created_snoc. etrans; [apply insert_by_created_perm|].
  rewrite IH. apply Permutation_cons_append.
Qed.

Lemma insert_by_created_sorted x L :
  StronglySorted not_before L -> StronglySorted not_before (insert_by_created x L).
Proof.
  induction L as [|y L IH]; simpl; intros HL.
  - repeat constructor.
  - apply StronglySorted_inv in HL as [HL Hy].
    destruct (str_ltb (created_at x) (created_at y)) eqn:Hxy.
    + constructor; [by constructor|]. constructor.
      * unfold not_before. by apply str_ltb_asym.
      * rewrite Forall_forall in *. intros z Hz. unfold not_before in *.
        destruct (str_ltb (created_at z) (created_at x)) eqn:Hzx; [|done].
        pose proof (str_ltb_trans _ _ _ Hzx Hxy). by rewrite Hy in *.
    + constructor; [by apply IH|]. rewrite Forall_forall in *.
      intros z Hz. apply list_elem_of_In, insert_by_created_In in Hz as [->|Hz]; [done|].
      apply Hy. by apply list_elem_of_In.
Qed.

Lemma sort_by_created_sorted q : StronglySorted not_before (sort_by_created q).
Proof.
  induction q as [|x q IH] using rev_ind; [constructor|].
  rewrite sort_by_created_snoc. by apply insert_by_created_sorted.
Qed.

Lemma filter_all_true {A} (f : A -> bool) l :
  (forall z, In z l -> f z = true) -> List.filter f l = l.
Proof.
  induction l as [|y l IH]; simpl; intros H; [done|].
  rewrite H by auto. f_equal. auto.
Qed.

Lemma filter_all_false {A} (f : A -> bool) l :
  (forall z, In z l -> f z = false) -> List.filter f l = [].
Proof.
  induction l as [|y l IH]; simpl; intros H; [done|].
  rewrite H by auto. auto.
Qed.

(** In a sorted list every element not after [x] precedes every element
    strictly after [x]. *)
Lemma sorted_after_x x y L :
  StronglySorted not_before (y :: L) ->
  str_ltb (created_at x) (created_at y) = true ->
  forall z, In z (y :: L) -> str_ltb (created_at x) (created_at z) = true.
Proof.
  intros HL Hxy z [<-|Hz]; [done|].
  apply StronglySorted_inv in HL as [_ Hy]. rewrite Forall_forall in Hy.
  specialize (Hy z (proj2 (list_elem_of_In _ _) Hz)). unfold not_before in Hy.
  destruct (str_ltb_total (created_at x) (created_at z)) as [?|[Heq|Hzx]]; [done| |].
  - rewrite <- Heq in Hy. by rewrite Hy in Hxy.
  - pose proof (str_ltb_trans _ _ _ Hzx Hxy). by rewrite Hy in *.
Qed.

Lemma sorted_split x L :
  StronglySorted not_before L ->
  L = List.filter (fun y => negb (str_ltb (created_at x) (created_at y))) L
      ++ List.filter (fun y => str_ltb (created_at x) (created_at y)) L.
Proof.
  induction L as [|y L IH]; intros HL; [done|].
  destruct (str_ltb (created_at x) (created_at y)) eqn:Hxy.
  - pose proof (sorted_after_x x y L HL Hxy) as Hall.
    rewrite (filter_all_false _ (y :: L)), (filter_all_true _ (y :: L)); [done| |].
    + intros z Hz. by rewrite Hall.
    + intros z Hz. by rewrite Hall.
  - simpl. rewrite Hxy. simpl. f_equal. apply IH.
    by apply StronglySorted_inv in HL as [? _].
Qed.

Lemma insert_by_created_split x L :
  StronglySorted not_before L ->
  insert_by_created x L =
    List.filter (fun y => negb (str_ltb (created_at x) (created_at y))) L
    ++ x :: List.filter (fun y => str_ltb (created_at x) (created_at y)) L.
Proof.
  induction L as [|y L IH]; intros HL; [done|].
  simpl. destruct (str_ltb (created_at x) (created_at y)) eqn:Hxy.
  - pose proof (sorted_after_x x y L HL Hxy) as Hall.
    rewrite (filter_all_false _ L), (filter_all_true _ L); [done| |].
    + intros z Hz. rewrite Hall; simpl; auto.
    + intros z Hz. rewrite Hall; simpl; auto.
  - simpl. f_equal. apply IH. by apply StronglySorted_inv in HL as [? _].
Qed.

Lemma length_filter_insert f x L :
  length (List.filter f (insert_by_created x L)) =
  (length (List.filter f L) + (if f x then 1 else 0))%nat.
Proof.
  induction L as [|y L IH]; simpl.
  - destruct (f x); done.
  - destruct (str_ltb (created_at x) (created_at y)); simpl.
    + destruct (f x), (f y); simpl; lia.
    + destruct (f y); simpl; rewrite IH; lia.
Qed.

Lemma length_filter_sort f q :
  length (List.filter f (sort_by_created q)) = length (List.filter f q).
Proof.
  induction q as [|x q IH] using rev_ind; [done|].
  rewrite sort_by_created_snoc, length_filter_insert, IH, List.filter_app, length_app.
  simpl. destruct (f x); simpl; lia.
Qed.

Lemma length_filter_add (f g h : entry -> bool) l :
  (forall y, ((if f y then 1 else 0) + (if g y then 1 else 0) = if h y then 1 else 0)%nat) ->
  (length (List.filter f l) + length (List.filter g l) = length (List.filter h l))%nat.
Proof.
  intros H. induction l as [|y l IH]; simpl; [done|].
  specialize (H y). destruct (f y), (g y), (h y); simpl in *; lia.
Qed.

(** The index in the sorted snapshot of the [j]-th queue entry [e]: the
    entries with a strictly earlier [created_at], then the entries with the
    same [created_at] that come before it in the queue. *)
Lemma sort_by_created_index q j e :
  q !! j = Some e ->
  sort_by_created q !!
    (length (List.filter (fun y => str_ltb (created_at y) (created_at e)) q)
     + length (List.filter (fun y => bool_decide (created_at y = created_at e)) (take j q)))%nat
  = Some e.
Proof.
  revert j e. induction q as [|x q IH] using rev_ind; intros j e Hj; [done|].
  pose proof (sort_by_created_sorted q) as Hs.
  rewrite sort_by_created_snoc, (insert_by_created_split x _ Hs).
  set (A := List.filter (fun y => negb (str_ltb (created_at x) (created_at y))) (sort_by_created q)).
  set (B := List.filter (fun y => str_ltb (created_at x) (created_at y)) (sort_by_created q)).
  pose proof (sorted_split x _ Hs) as Hsplit. fold A B in Hsplit.
  rewrite List.filter_app, length_app.
  apply lookup_app_Some in Hj as [Hj|[Hlen Hj]].
  - pose proof (lookup_lt_Some _ _ _ Hj) as Hjl.
    rewrite take_app_le by lia.
    specialize (IH j e Hj). rewrite Hsplit in IH.
    set (F := (length (List.filter (fun y => str_ltb (created_at y) (created_at e)) q)
     + length (List.filter (fun y => bool_decide (created_at y = created_at e)) (take j q)))%nat) in *.
    simpl.
    apply lookup_app_Some in IH as [HA|[HlenA HB]].
    + assert (Hxe : str_ltb (created_at x) (created_at e) = false).
      { apply list_elem_of_lookup_2 in HA. apply list_elem_of_In in HA.
        unfold A in HA. apply filter_In in HA as [_ HA]. by apply negb_true_iff in HA. }
      rewrite Hxe, Nat.add_0_r. fold F.
      rewrite lookup_app_l by (by eapply lookup_lt_Some). done.
    + assert (Hxe : str_ltb (created_at x) (created_at e) = true).
      { apply list_elem_of_lookup_2 in HB. apply list_elem_of_In in HB.
        unfold B in HB. by apply filter_In in HB as [_ HB]. }
      rewrite Hxe. change (length [x]) with 1%nat. match goal with |- _ !! ?i = _ => replace i with (S F) by (unfold F; lia) end.
      rewrite lookup_app_r by lia.
      replace (S F - length A)%nat with (S (F - length A)) by lia. done.
  - apply list_lookup_singleton_Some in Hj as [Hj0 <-].
    replace j with (length q) by lia. rewrite take_app_length'. 2: lia.
    simpl. rewrite str_ltb_irrefl. simpl. rewrite Nat.add_0_r.
    assert (Hcnt : length A =
      (length (List.filter (fun y => str_ltb (created_at y) (created_at x)) q)
       + length (List.filter (fun y => bool_decide (created_at y = created_at x)) q))%nat).
    { unfold A. rewrite length_filter_sort. symmetry. apply length_filter_add.
      intros y. destruct (str_ltb_total (created_at y) (created_at x)) as [H|[H|H]].
      - rewrite H, bool_decide_false, (str_ltb_asym _ _ H); [done|].
        intros Heq. rewrite Heq, str_ltb_irrefl in H. done.
      - rewrite H, str_ltb_irrefl, bool_decide_true; done.
      - rewrite H, (str_ltb_asym _ _ H), bool_decide_false; [done|].
        intros Heq. rewrite Heq, str_ltb_irrefl in H. done. }
    rewrite <- Hcnt, lookup_app_r, Nat.sub_diag by lia. done.
Qed.

Lemma index_map_from_notin idx l m t :
  ~ In t (map task_id l) -> index_map_from idx l m !! t = m !! t.
Proof.
  revert idx m. induction l as [|e l IH]; intros idx m Ht; simpl; [done|].
  simpl in Ht. rewrite IH by tauto. rewrite lookup_insert_ne; [done|]. tauto.
Qed.

Lemma index_map_from_lookup idx l m p e :
  NoDup (map task_id l) -> l !! p = Some e ->
  index_map_from idx l m !! task_id e = Some (idx + Z.of_nat p + 1).
Proof.
  revert idx m p. induction l as [|y l IH]; intros idx m p Hnd Hp; [done|].
  simpl in Hnd. apply NoDup_cons in Hnd as [Hy Hnd]. destruct p as [|p]; simpl in Hp.
  - injection Hp as <-. simpl. rewrite index_map_from_notin by (by rewrite <- list_elem_of_In).
    rewrite lookup_insert_eq. f_equal. lia.
  - simpl. rewrite (IH (idx + 1) _ p Hnd Hp). f_equal. lia.
Qed.

(** Claim C5 (as amended): for a queue whose task ids are distinct, the
    position reported for the queued job of the [j]-th queue entry [e] is
    1 plus the number of entries with a strictly earlier [created_at] plus
    the number of entries with the same [created_at] that precede it in
    the queue: the sort is stable, so ties keep queue order. *)
Theorem queue_position_counts_earlier_and_tied (q : list entry) (j : nat) (e : entry) :
  NoDup (map task_id q) -> q !! j = Some e ->
  queue_position q Queued (task_id e) =
  Some (1 + Z.of_nat (length (List.filter (fun y => str_ltb (created_at y) (created_at e)) q)
                      + length (List.filter (fun y => bool_decide (created_at y = created_at e)) (take j q)))).
Proof.
  intros Hnd Hj. unfold queue_position, queue_index_map.
  rewrite (index_map_from_lookup 0 _ _
    (length (List.filter (fun y => str_ltb (created_at y) (created_at e)) q)
     + length (List.filter (fun y => bool_decide (created_at y = created_at e)) (take j q)))%nat e).
  - f_equal. lia.
  - by rewrite (Permutation_map task_id (sort_by_created_perm q)).
  - by apply sort_by_created_index.
Qed.

Lemma queue_position_counts_earlier_and_tied_witness :
  let q := [mkEntry (pys "2025-01-02") (pys "a") 0; mkEntry (pys "2025-01-01") (pys "b") 0;
            mkEntry (pys "2025-01-01") (pys "c") 0] in
  NoDup (map task_id q) /\ q !! 2%nat = Some (mkEntry (pys "2025-01-01") (pys "c") 0) /\
  queue_position q Queued (pys "c") = Some 2.
Proof.
  intros q. assert (Hnd : NoDup (map task_id q)) by (apply (bool_decide_unpack _); vm_compute; exact I).
  split; [exact Hnd|]. split; [reflexivity|].
  etransitivity;
    [exact (queue_position_counts_earlier_and_tied q 2 (mkEntry (pys "2025-01-01") (pys "c") 0) Hnd eq_refl)|].
  vm_compute. reflexivity.
Defined.

(** Claim C5 as stated fails: two queued jobs with the same [created_at]
    get positions 1 and 2, while no entry is strictly earlier than the
    second one. *)
Lemma queue_position_strictly_earlier_counterexample :
  ~ (forall (q : list entry) (e : entry), In e q -> NoDup (map task_id q) ->
       queue_position q Queued (task_id e) =
       Some (1 + Z.of_nat (length (List.filter (fun y => str_ltb (created_at y) (created_at e)) q)))).
Proof.
  intros H.
  specialize (H [mkEntry (pys "2025-01-01") (pys "a") 0; mkEntry (pys "2025-01-01") (pys "b") 0]
                (mkEntry (pys "2025-01-01") (pys "b") 0)).
  assert (Hin : In (mkEntry (pys "2025-01-01") (pys "b") 0)
                   [mkEntry (pys "2025-01-01") (pys "a") 0; mkEntry (pys "2025-01-01") (pys "b") 0])
    by (simpl; auto).
  specialize (H Hin).
  assert (Hnd : NoDup (map task_id [mkEntry (pys "2025-01-01") (pys "a") 0;
                                    mkEntry (pys "2025-01-01") (pys "b") 0]))
    by (apply (bool_decide_unpack _); vm_compute; exact I).
  specialize (H Hnd). vm_compute in H. congruence.
Qed.

End SchedulerProofs.

Module LayoutProofs.
Import PyFacts Layout.

Definition area_ge (a c : box) : Prop := (_area c <= _area a)%Q.

Lemma insert_by_area_perm b l : Permutation (insert_by_area b l) (b :: l).
Proof.
  induction l as [|y l IH]; simpl; [done|].
  destruct (Qltb (_area y) (_area b)); [done|].
  etrans; [apply perm_skip, IH|]. apply perm_swap.
Qed.

Lemma sort_by_area_desc_perm l : Permutation (sort_by_area_desc l) l.
Proof.
  induction l as [|x l IH] using rev_ind; [done|].
  unfold sort_by_area_desc in *. rewrite fold_left_app. simpl.
  etrans; [apply insert_by_area_perm|]. rewrite IH. apply Permutation_cons_append.
Qed.

Lemma insert_by_area_sorted b l :
  StronglySorted area_ge l -> StronglySorted area_ge (insert_by_area b l).
Proof.
  induction l as [|y l IH]; simpl; intros Hl.
  - repeat constructor.
  - apply StronglySorted_inv in Hl as [Hl Hy].
    destruct (Qltb (_area y) (_area b)) eqn:Hyb.
    + apply Qltb_true in Hyb. constructor; [by constructor|].
      constructor; [unfold area_ge; by apply Qlt_le_weak|].
      rewrite Forall_forall in *. intros z Hz. unfold area_ge in *.
      specialize (Hy z Hz). apply Qlt_le_weak. eapply Qle_lt_trans; eauto.
    + apply Qltb_false in Hyb. constructor; [by apply IH|].
      rewrite Forall_forall in *. intros z Hz.
      apply list_elem_of_In in Hz.
      apply (Permutation_in _ (insert_by_area_perm b l)) in Hz as [<-|Hz]; [done|].
      apply Hy. by apply list_elem_of_In.
Qed.

Lemma sort_by_area_desc_sorted l : StronglySorted area_ge (sort_by_area_desc l).
Proof.
  induction l as [|x l IH] using rev_ind; [constructor|].
  unfold sort_by_area_desc in *. rewrite fold_left_app. simpl.
  by apply insert_by_area_sorted.
Qed.

Lemma keep_loop_prefix tol kept l :
  exists added, keep_loop tol kept l = kept ++ added.
Proof.
  revert kept. induction l as [|b l IH]; intros kept; simpl.
  - exists []. by rewrite app_nil_r.
  - destruct (existsb _ kept); [apply IH|].
    destruct (IH (kept ++ [b])) as [added ->]. exists (b :: added).
    by rewrite <- app_assoc.
Qed.

Lemma keep_loop_covers tol kept l :
  StronglySorted area_ge l ->
  (forall k z, In k kept -> In z l -> area_ge k z) ->
  forall b, In b l ->
    In b (keep_loop tol kept l) \/
    exists k, In k (keep_loop tol kept l) /\ _contains tol k b = true /\ area_ge k b.
Proof.
  revert kept. induction l as [|b l IH]; intros kept Hs Hk z Hz; [done|].
  apply StronglySorted_inv in Hs as [Hs Hb]. rewrite Forall_forall in Hb.
  simpl. destruct (existsb (fun k => _contains tol k b) kept) eqn:Hex.
  - destruct Hz as [<-|Hz].
    + apply existsb_exists in Hex as [k [Hkin Hc]]. right. exists k.
      split; [|split; [done|apply Hk; simpl; auto]].
      destruct (keep_loop_prefix tol kept l) as [added ->]. apply in_or_app. auto.
    + apply IH; auto. intros k w Hkin Hw. apply Hk; simpl; auto.
  - destruct Hz as [<-|Hz].
    + left. destruct (keep_loop_prefix tol (kept ++ [b]) l) as [added ->].
      apply in_or_app. left. apply in_or_app. right. simpl. auto.
    + apply IH; auto. intros k w Hkin Hw. apply in_app_or in Hkin as [Hkin|[<-|[]]].
      * apply Hk; simpl; auto.
      * apply Hb. by apply list_elem_of_In.
Qed.

Definition no_later_inside (tol : Q) (kept : list box) : Prop :=
  forall i j a c, (i < j)%nat -> kept !! i = Some a -> kept !! j = Some c ->
    _contains tol a c = false.

Lemma keep_loop_no_later_inside tol kept l :
  no_later_inside tol kept -> no_later_inside tol (keep_loop tol kept l).
Proof.
  revert kept. induction l as [|b l IH]; intros kept Hk; simpl; [done|].
  destruct (existsb (fun k => _contains tol k b) kept) eqn:Hex; [by apply IH|].
  apply IH. intros i j a c Hij Ha Hc.
  apply lookup_app_Some in Hc as [Hc|[Hlen Hc]].
  - apply lookup_app_Some in Ha as [Ha|[Hlen Ha]].
    + eapply Hk; eauto.
    + apply lookup_lt_Some in Hc. lia.
  - apply list_lookup_singleton_Some in Hc as [Hj0 <-].
    apply lookup_app_Some in Ha as [Ha|[Hlen' Ha]].
    + destruct (_contains tol a b) eqn:Hab; [|done].
      assert (existsb (fun k => _contains tol k b) kept = true) as Htrue.
      { apply existsb_exists. exists a. split; [|done].
        apply list_elem_of_In. by eapply list_elem_of_lookup_2. }
      congruence.
    + apply list_lookup_singleton_Some in Ha as [? _]. lia.
Qed.

(** Claim C2 (as amended): the containment filter discards a box only if
    a kept box of area at least as large contains all four of its edges
    within the tolerance, and no two kept boxes mutually contain each
    other within the tolerance. *)
Theorem containment_filter_sound (boxes : list box) (tolerance : Q) :
  let kept := _remove_fully_contained_boxes boxes tolerance in
  (forall b, In b boxes ->
     In b kept \/
     exists k, In k kept /\ _contains tolerance k b = true /\ (_area b <= _area k)%Q) /\
  (forall i j a c, i <> j -> kept !! i = Some a -> kept !! j = Some c ->
     ~ (_contains tolerance a c = true /\ _contains tolerance c a = true)).
Proof.
  intros kept. split.
  - intros b Hb. apply (keep_loop_covers tolerance []).
    + apply sort_by_area_desc_sorted.
    + intros k z [].
    + eapply Permutation_in; [symmetry; apply sort_by_area_desc_perm|done].
  - intros i j a c Hij Ha Hc [Hac Hca].
    assert (Hnl : no_later_inside tolerance kept).
    { apply keep_loop_no_later_inside. intros i' j' a' c' _ Ha'. done. }
    destruct (Nat.lt_ge_cases i j) as [Hlt|Hge].
    + specialize (Hnl i j a c Hlt Ha Hc). congruence.
    + assert (j < i)%nat as Hlt by lia. specialize (Hnl j i c a Hlt Hc Ha). congruence.
Qed.

(** Claim C2 as stated fails: of two boxes of equal area, one shifted by
    one pixel inside the other's tolerance, the second is discarded
    although no kept box has a strictly larger area. *)
Lemma containment_filter_strictly_larger_counterexample :
  ~ (forall (boxes : list box) (b : box), In b boxes ->
       In b (_remove_fully_contained_boxes boxes 2) \/
       exists k, In k (_remove_fully_contained_boxes boxes 2) /\
                 _contains 2 k b = true /\ (_area b < _area k)%Q).
Proof.
  intros H.
  specialize (H [mkBox 0 0 10 10 1; mkBox 1 0 11 10 1] (mkBox 1 0 11 10 1)).
  destruct H as [Hin|[k [Hk [_ Hlt]]]]; [simpl; auto| |].
  - vm_compute in Hin. destruct Hin as [Heq|[]]. discriminate.
  - vm_compute in Hk. destruct Hk as [<-|[]]. vm_compute in Hlt. discriminate.
Qed.

End LayoutProofs.

Module FontFitProofs.
Import PyFacts FontFit.

Lemma py_int_mono q1 q2 : (0 <= q1)%Q -> (q1 <= q2)%Q -> py_int q1 <= py_int q2.
Proof.
  intros H0 H12. assert (H02 : (0 <= q2)%Q) by (eapply Qle_trans; eauto).
  pose proof (Qfloor_resp_le _ _ H12) as Hf.
  destruct q1 as [n1 d1], q2 as [n2 d2]. unfold py_int, Qfloor in *. simpl in *.
  unfold Qle in H0, H02. simpl in H0, H02.
  rewrite !Z.quot_div_nonneg by lia. done.
Qed.

Lemma ceil_div_anti a b1 b2 : 0 <= a -> 0 < b1 -> b1 <= b2 -> ceil_div a b2 <= ceil_div a b1.
Proof.
  intros Ha Hb1 Hb12. unfold ceil_div.
  pose proof (Z.div_mod (- a) b1 ltac:(lia)) as E1.
  pose proof (Z.mod_pos_bound (- a) b1 ltac:(lia)) as M1.
  pose proof (Z.div_mod (- a) b2 ltac:(lia)) as E2.
  pose proof (Z.mod_pos_bound (- a) b2 ltac:(lia)) as M2.
  set (c1 := (- a) / b1) in *. set (c2 := (- a) / b2) in *.
  set (r1 := (- a) mod b1) in *. set (r2 := (- a) mod b2) in *.
  assert (c1 <= 0) by nia. nia.
Qed.

Lemma Qle_inject_Z a b : a <= b -> (inject_Z a <= inject_Z b)%Q.
Proof. intros H. unfold Qle; simpl. lia. Qed.

(** The fit test at one size is monotone in the available width and
    height. *)
Lemma fits_at_mono dir N W1 H1 W2 H2 mid :
  0 <= N -> (0 <= W1)%Q -> (0 <= H1)%Q -> (W1 <= W2)%Q -> (H1 <= H2)%Q ->
  fits_at dir N W1 H1 mid = true -> fits_at dir N W2 H2 mid = true.
Proof.
  intros HN HW1 HH1 HW HH. unfold fits_at.
  assert (Hcpl : forall X1 X2 d : Q, (0 <= X1)%Q -> (X1 <= X2)%Q -> (0 <= d)%Q ->
            Z.max 1 (py_int (X1 / d)) <= Z.max 1 (py_int (X2 / d))).
  { intros X1 X2 d HX1 HX Hd.
    pose proof (Qinv_le_0_compat d Hd) as Hinv.
    apply Z.max_le_compat_l, py_int_mono.
    - unfold Qdiv. apply Qmult_le_0_compat; done.
    - unfold Qdiv. by apply Qmult_le_compat_r. }
  assert (Htot : forall l1 l2 : Z, l2 <= l1 -> 0 < mid ->
            (inject_Z (l2 * mid) * (105 # 100) <= inject_Z (l1 * mid) * (105 # 100))%Q).
  { intros l1 l2 Hl Hm. apply Qmult_le_compat_r; [|done]. apply Qle_inject_Z. nia. }
  destruct (bool_decide (dir = pys "horizontal")).
  - destruct (Qltb 0 (inject_Z mid * 1)) eqn:Hpos.
    + assert (Hm : 0 < mid).
      { apply Qltb_true in Hpos. unfold Qlt in Hpos; simpl in Hpos. lia. }
      rewrite !Qle_bool_iff. intros Hf.
      assert (Hd : (0 <= inject_Z mid * 1)%Q) by (unfold Qle; simpl; lia).
      pose proof (Hcpl W1 W2 _ HW1 HW Hd) as Hc.
      rewrite !(proj2 (Z.ltb_lt 0 _)) by lia.
      rewrite !(proj2 (Z.ltb_lt 0 _)) in Hf by lia.
      eapply Qle_trans; [|eapply Qle_trans; [exact Hf|exact HH]].
      apply Htot; [|done]. apply ceil_div_anti; lia.
    + rewrite !Qle_bool_iff. intros Hf. eapply Qle_trans; eauto.
  - destruct (0 <? mid) eqn:Hpos.
    + apply Z.ltb_lt in Hpos. rewrite !Qle_bool_iff. intros Hf.
      assert (Hd : (0 <= inject_Z mid)%Q) by (unfold Qle; simpl; lia).
      pose proof (Hcpl H1 H2 _ HH1 HH Hd) as Hc.
      rewrite !(proj2 (Z.ltb_lt 0 _)) by lia.
      rewrite !(proj2 (Z.ltb_lt 0 _)) in Hf by lia.
      eapply Qle_trans; [|eapply Qle_trans; [exact Hf|exact HW]].
      apply Htot; [|done]. apply ceil_div_anti; lia.
    + rewrite !Qle_bool_iff. intros Hf. eapply Qle_trans; eauto.
Qed.

Lemma search_ge_best fits fuel low high best :
  best <= low -> best <= search fits fuel low high best.
Proof.
  revert low high best. induction fuel as [|fuel IH]; intros low high best Hb; simpl; [lia|].
  destruct (Z.leb_spec low high); [|lia].
  destruct (Z.eqb_spec ((low + high) / 2) 0); [lia|].
  assert (low <= (low + high) / 2) by (apply Z.div_le_lower_bound; lia).
  destruct (fits ((low + high) / 2)).
  - etrans; [|apply IH; lia]. lia.
  - apply IH. lia.
Qed.

Lemma search_le_max fits fuel low high best :
  search fits fuel low high best <= Z.max best high.
Proof.
  revert low high best. induction fuel as [|fuel IH]; intros low high best; simpl; [lia|].
  destruct (Z.leb_spec low high); [|lia].
  destruct (Z.eqb_spec ((low + high) / 2) 0); [lia|].
  assert ((low + high) / 2 <= high) by (apply Z.div_le_upper_bound; lia).
  destruct (fits ((low + high) / 2)).
  - etrans; [apply IH|]. lia.
  - etrans; [apply IH|]. lia.
Qed.

(** A binary search whose fit test accepts more sizes never ends lower. *)
Lemma search_mono (fits1 fits2 : Z -> bool) fuel low high best :
  (forall m, fits1 m = true -> fits2 m = true) ->
  best <= low ->
  search fits1 fuel low high best <= search fits2 fuel low high best.
Proof.
  intros Hf. revert low high best. induction fuel as [|fuel IH]; intros low high best Hb; simpl; [lia|].
  destruct (Z.leb_spec low high); [|lia].
  destruct (Z.eqb_spec ((low + high) / 2) 0); [lia|].
  assert (low <= (low + high) / 2) by (apply Z.div_le_lower_bound; lia).
  destruct (fits1 ((low + high) / 2)) eqn:F1.
  - rewrite (Hf _ F1). apply IH. lia.
  - destruct (fits2 ((low + high) / 2)) eqn:F2.
    + etrans; [apply search_le_max|].
      etrans; [|apply search_ge_best; lia]. lia.
    + apply IH. lia.
Qed.

(** Claim C6 (as amended): for fixed text, direction, size range and a
    positive padding ratio, a rectangle at least as wide and at least as
    tall as a rectangle of positive size never gets a smaller font size. *)
Theorem font_size_monotone_in_width_and_height (text dir : pystr) (min_size max_size : Z)
    (padding_ratio : Q) (w1 h1 w2 h2 : Z) :
  (0 < padding_ratio)%Q -> 0 < w1 -> 0 < h1 -> w1 <= w2 -> h1 <= h2 ->
  calculate_auto_font_size text w1 h1 dir min_size max_size padding_ratio <=
  calculate_auto_font_size text w2 h2 dir min_size max_size padding_ratio.
Proof.
  intros Hp Hw1 Hh1 Hw Hh. unfold calculate_auto_font_size.
  rewrite !(proj2 (Z.leb_gt _ 0)) by lia. rewrite !orb_false_r.
  destruct (bool_decide (text = []) || bool_decide (py_strip text = [])); [lia|].
  assert (Hsc : forall a b : Z, 0 <= a -> a <= b ->
            (0 <= inject_Z a * padding_ratio)%Q /\
            (inject_Z a * padding_ratio <= inject_Z b * padding_ratio)%Q).
  { intros a b Ha Hab. split.
    - apply Qmult_le_0_compat; [|by apply Qlt_le_weak].
      change 0%Q with (inject_Z 0). by apply Qle_inject_Z.
    - apply Qmult_le_compat_r; [by apply Qle_inject_Z|by apply Qlt_le_weak]. }
  destruct (Hsc w1 w2 ltac:(lia) Hw) as [HW0 HW].
  destruct (Hsc h1 h2 ltac:(lia) Hh) as [HH0 HH].
  destruct (bool_decide (dir = pys "vertical")); simpl;
    apply Z.max_le_compat_l, search_mono; try lia; intros m; apply fits_at_mono; auto; lia.
Qed.

Lemma font_size_monotone_in_width_and_height_witness :
  (0 < 1)%Q /\ 0 < 100 /\ 0 < 20 /\ 100 <= 300 /\ 20 <= 40 /\
  font_size_default (pys "hello world") 100 20 (pys "horizontal") <=
  font_size_default (pys "hello world") 300 40 (pys "horizontal").
Proof.
  split; [reflexivity|]. do 4 (split; [lia|]).
  apply font_size_monotone_in_width_and_height; [reflexivity|lia..].
Defined.

(** Claim C6 as stated fails: a 1000x20 rectangle has twice the area of a
    100x100 one, but "ab" gets size 50 in the square and 19 in the strip. *)
Lemma font_size_monotone_in_area_counterexample :
  ~ (forall (text dir : pystr) (w1 h1 w2 h2 : Z),
       text <> [] -> w1 * h1 <= w2 * h2 ->
       font_size_default text w1 h1 dir <= font_size_default text w2 h2 dir).
Proof.
  intros H. specialize (H (pys "ab") (pys "horizontal") 100 100 1000 20 ltac:(discriminate) ltac:(lia)).
  vm_compute in H. apply H. reflexivity.
Qed.

(** Claim C9: [calculate_auto_font_size] returns 30 whenever the text is
    empty or whitespace-only or a side of the rectangle is non-positive,
    whatever [min_size] and [max_size] are; otherwise the result is at
    least [min_size]. *)
Theorem font_size_guard_and_floor (text dir : pystr) (w h min_size max_size : Z) (padding_ratio : Q) :
  ((text = [] \/ py_strip text = [] \/ w <= 0 \/ h <= 0) ->
   calculate_auto_font_size text w h dir min_size max_size padding_ratio = 30) /\
  (~ (text = [] \/ py_strip text = [] \/ w <= 0 \/ h <= 0) ->
   min_size <= calculate_auto_font_size text w h dir min_size max_size padding_ratio).
Proof.
  unfold calculate_auto_font_size. split.
  - intros Hg. destruct Hg as [H|[H|[H|H]]].
    + by rewrite (bool_decide_eq_true_2 _ H).
    + rewrite (bool_decide_eq_true_2 _ H). by rewrite orb_true_r.
    + rewrite (proj2 (Z.leb_le _ _) H). by rewrite !orb_true_r.
    + rewrite (proj2 (Z.leb_le _ _) H). by rewrite !orb_true_r.
  - intros Hg.
    rewrite (bool_decide_eq_false_2 (text = [])) by tauto.
    rewrite (bool_decide_eq_false_2 (py_strip text = [])) by tauto.
    rewrite (proj2 (Z.leb_gt w 0)) by lia. rewrite (proj2 (Z.leb_gt h 0)) by lia.
    simpl. destruct (if bool_decide _ then _ else _). lia.
Qed.

Lemma font_size_guard_and_floor_witness :
  calculate_auto_font_size (pys "   ") 100 100 (pys "horizontal") 40 60 1%Q = 30 /\
  12 <= font_size_default (pys "text") 5 5 (pys "horizontal").
Proof.
  split.
  - apply (proj1 (font_size_guard_and_floor (pys "   ") (pys "horizontal") 100 100 40 60 1%Q)).
    right. left. reflexivity.
  - apply (proj2 (font_size_guard_and_floor (pys "text") (pys "horizontal") 5 5 12 60 1%Q)).
    intros [H|[H|[H|H]]]; [discriminate|discriminate|lia|lia].
Defined.

End FontFitProofs.

Module ComposerProofs.
Import PyFacts Composer.

Lemma line_step_length ctx cb lt nb nt : length (line_step ctx cb lt nb nt) = 2%nat.
Proof.
  unfold line_step.
  repeat match goal with |- context [if ?b then _ else _] => destruct b end; reflexivity.
Qed.

(** Iteration [i] of the cross-line loop sits at parts [2 i] and [2 i + 1]. *)
Lemma result_parts_at ctx (ls : list (bbox * pystr)) (i : nat) cb lt nb nt :
  nth_error ls i = Some (cb, lt) -> nth_error ls (S i) = Some (nb, nt) ->
  exists pre, result_parts ctx ls = pre ++ line_step ctx cb lt nb nt ++ result_parts ctx (drop (S i) ls)
              /\ length pre = (2 * i)%nat.
Proof.
  revert ls. induction i as [|i IH]; intros ls H1 H2.
  - destruct ls as [|[c l] [|[n t] r]]; try discriminate.
    simpl in H1, H2. injection H1 as -> ->. injection H2 as -> ->.
    exists []. split; reflexivity.
  - destruct ls as [|[c l] ls']; [discriminate|].
    simpl in H1, H2.
    destruct ls' as [|[n t] r]; [destruct i; discriminate|].
    destruct (IH ((n, t) :: r) H1 H2) as (pre & Heq & Hlen).
    exists (line_step ctx c l n t ++ pre). split.
    + change (result_parts ctx ((c, l) :: (n, t) :: r))
        with (line_step ctx c l n t ++ result_parts ctx ((n, t) :: r)).
      rewrite Heq. rewrite <- !app_assoc. reflexivity.
    + rewrite length_app, line_step_length, Hlen. lia.
Qed.

Lemma nth_error_zip {A B} (a : list A) (b : list B) (i : nat) x y :
  nth_error a i = Some x -> nth_error b i = Some y -> nth_error (zip a b) i = Some (x, y).
Proof.
  revert a b. induction i as [|i IH]; intros [|x0 a] [|y0 b] Ha Hb; try discriminate; simpl in *.
  - congruence.
  - apply IH; assumption.
Qed.

(** Claim C7 (amended): with default tuning, whenever the vertical gap
    between line [i] and line [i+1] (top of the next line minus bottom of
    the current one) is at least [max(8, 1.2 * h_med)], the composed text
    is the concatenation of parts in which line [i]'s text is immediately
    followed by a hard newline. *)
Theorem para_gap_forces_newline (lines : list (list litem)) (lang_in : option pystr)
    (bbs : list bbox) (i : nat) (ln ln' : list litem) (b b' : bbox)
    (Hb : mapM head_bbox lines = Some bbs)
    (Hl : nth_error lines i = Some ln) (Hl' : nth_error lines (S i) = Some ln')
    (Hbi : nth_error bbs i = Some b) (Hbi' : nth_error bbs (S i) = Some b')
    (Hgap : (Qmax 8 (lines_h_med bbs * (12 # 10)) <= inject_Z (ly0 b' - ly1 b))%Q) :
  exists parts,
    _compose_text_with_linebreaks lines lang_in None = Some (concat parts) /\
    nth_error parts (2 * i) = Some (compose_single_line None (is_cjk_lang lang_in) ln) /\
    nth_error parts (S (2 * i)) = Some [10].
Proof.
  unfold _compose_text_with_linebreaks.
  destruct lines as [|l0 lrest]; [destruct i; discriminate|].
  rewrite Hb.
  set (ctx := lines_ctx bbs lang_in None).
  set (texts := map (compose_single_line None (is_cjk_lang lang_in)) (l0 :: lrest)).
  assert (Ht : nth_error texts i = Some (compose_single_line None (is_cjk_lang lang_in) ln)).
  { unfold texts. rewrite nth_error_map, Hl. reflexivity. }
  assert (Ht' : nth_error texts (S i) = Some (compose_single_line None (is_cjk_lang lang_in) ln')).
  { unfold texts. rewrite nth_error_map, Hl'. reflexivity. }
  destruct (result_parts_at ctx (zip bbs texts) i b _ b' _
              (nth_error_zip _ _ _ _ _ Hbi Ht) (nth_error_zip _ _ _ _ _ Hbi' Ht'))
    as (pre & Heq & Hlen).
  assert (Hpb : para_break ctx b b' (compose_single_line None (is_cjk_lang lang_in) ln') = true).
  { unfold para_break. apply orb_true_intro. left. apply orb_true_intro. left.
    apply Qle_bool_iff. exact Hgap. }
  exists (result_parts ctx (zip bbs texts)). split; [reflexivity|].
  rewrite Heq. unfold line_step. rewrite Hpb.
  split.
  - rewrite nth_error_app2 by lia. rewrite Hlen, Nat.sub_diag. reflexivity.
  - rewrite nth_error_app2 by lia. rewrite Hlen.
    replace (S (2 * i) - 2 * i)%nat with 1%nat by lia. reflexivity.
Qed.

Lemma para_gap_forces_newline_witness :
  exists parts,
    _compose_text_with_linebreaks
      (_group_items_into_lines [mkItem (pys "ab") 0 0 20 5; mkItem (pys "cd") 0 13 20 18])
      None None = Some (concat parts) /\
    nth_error parts 0 = Some (pys "ab") /\ nth_error parts 1 = Some [10].
Proof.
  set (G := _group_items_into_lines _).
  destruct (para_gap_forces_newline G None [mkBBox 0 0 20 5; mkBBox 0 13 20 18] 0
              (nth 0 G []) (nth 1 G []) (mkBBox 0 0 20 5) (mkBBox 0 13 20 18))
    as (parts & H1 & H2 & H3);
    [vm_compute; reflexivity | vm_compute; reflexivity | vm_compute; reflexivity
    | reflexivity | reflexivity | apply Qle_bool_iff; vm_compute; reflexivity |].
  change (2 * 0)%nat with 0%nat in H2. change (S (2 * 0)) with 1%nat in H3. exists parts. split; [exact H1|]. split; [|exact H3].
  rewrite H2. vm_compute. reflexivity.
Defined.

(** Claim C7 as stated (newline whenever the gap exceeds
    [1.2 * h_med]) fails: two lines of height 5 with a gap of 7 > 6 are
    joined by a space, because the code's threshold is [max(8, 1.2 *
    h_med)]. *)
Lemma para_gap_1_2_median_counterexample :
  mapM head_bbox (_group_items_into_lines
      [mkItem (pys "ab") 0 0 20 5; mkItem (pys "cd") 0 12 20 17])
    = Some [mkBBox 0 0 20 5; mkBBox 0 12 20 17] /\
  (lines_h_med [mkBBox 0 0 20 5; mkBBox 0 12 20 17] * (12 # 10) < inject_Z (12 - 5))%Q /\
  _compose_text_with_linebreaks
      (_group_items_into_lines [mkItem (pys "ab") 0 0 20 5; mkItem (pys "cd") 0 12 20 17])
      None None = Some (pys "ab cd").
Proof.
  split; [vm_compute; reflexivity|]. split.
  - vm_compute. reflexivity.
  - vm_compute. reflexivity.
Qed.

(** Claim C8 (code bug): when a line's text ends in a hyphen, the next
    (last) line's text starts with a letter and no paragraph break applies,
    the composer drops the hyphen and appends the continuation, and then
    appends the continuation line's text a second time. *)
Theorem hyphen_join_repeats_continuation (ln1 ln2 : list litem) (lang_in : option pystr)
    (tuning : option tuning_dict) (b1 b2 : bbox) (h : Z)
    (H1 : head_bbox ln1 = Some b1) (H2 : head_bbox ln2 = Some b2)
    (Hnp : para_break (lines_ctx [b1; b2] lang_in tuning) b1 b2
             (compose_single_line tuning (is_cjk_lang lang_in) ln2) = false)
    (Hh : last1 (py_rstrip (compose_single_line tuning (is_cjk_lang lang_in) ln1)) = [h])
    (Hhy : in_set [h] _HYPHENS = true)
    (Hlet : starts_with_letter (py_lstrip (compose_single_line tuning (is_cjk_lang lang_in) ln2)) = true) :
  _compose_text_with_linebreaks [ln1; ln2] lang_in tuning =
    Some (rstrip_str [h] (compose_single_line tuning (is_cjk_lang lang_in) ln1)
          ++ py_lstrip (compose_single_line tuning (is_cjk_lang lang_in) ln2)
          ++ compose_single_line tuning (is_cjk_lang lang_in) ln2).
Proof.
  unfold _compose_text_with_linebreaks. simpl mapM. rewrite H1, H2. simpl.
  set (lt1 := compose_single_line tuning (is_cjk_lang lang_in) ln1) in *.
  set (lt2 := compose_single_line tuning (is_cjk_lang lang_in) ln2) in *.
  set (ctx := lines_ctx [b1; b2] lang_in tuning) in *.
  unfold line_step. rewrite Hnp.
  destruct lt1 as [|c r] eqn:Elt1; [discriminate|].
  rewrite <- Elt1 in *. rewrite Hh, Hhy.
  destruct (py_lstrip lt2) as [|d r2] eqn:E2; [discriminate|].
  rewrite Hlet. simpl. rewrite !app_nil_r. reflexivity.
Qed.

Lemma hyphen_join_repeats_continuation_witness :
  _compose_text_with_linebreaks
    (_group_items_into_lines [mkItem (pys "exam-") 0 0 50 10; mkItem (pys "ple") 0 14 30 24])
    None None = Some (pys "exampleple").
Proof.
  set (G := _group_items_into_lines _).
  assert (HG : G = [nth 0 G []; nth 1 G []]) by (vm_compute; reflexivity).
  rewrite HG.
  etransitivity.
  { apply (hyphen_join_repeats_continuation (nth 0 G []) (nth 1 G []) None None
             (mkBBox 0 0 50 10) (mkBBox 0 14 30 24) 0x2d); vm_compute; reflexivity. }
  vm_compute. reflexivity.
Defined.

End ComposerProofs.

Module PipelineProofs.
Import PyFacts Pipeline.

Lemma lookup_map_list {A B} (f : A -> B) (l : list A) (i : nat) : map f l !! i = f <$> l !! i.
Proof. revert i. induction l as [|a l IH]; intros [|i]; simpl; auto. Qed.

Lemma at_build {A} (d : A) (W H : Z) (f : Z -> Z -> A) (x y : Z) :
  0 <= x < W -> 0 <= y < H -> at_ d (build W H f) x y = f x y.
Proof.
  intros Hx Hy. unfold at_, build. simpl.
  rewrite lookup_map_list, lookup_seqZ_lt by lia. simpl.
  rewrite lookup_map_list, lookup_seqZ_lt by lia. simpl.
  rewrite !Z2Nat.id by lia. reflexivity.
Qed.

Lemma in_dom_bounds {A} (g : grid A) (x y : Z) :
  in_dom g x y = true -> 0 <= x < gw g /\ 0 <= y < gh g.
Proof. unfold in_dom. intros H. repeat rewrite andb_true_iff in H. lia. Qed.

Lemma wf_build {A} (W H : Z) (f : Z -> Z -> A) : 0 <= W -> 0 <= H -> wf (build W H f).
Proof.
  intros HW HH. unfold wf, build. simpl. split; [lia|]. split; [lia|]. split.
  - rewrite length_map, length_seqZ. reflexivity.
  - apply Forall_forall. intros row Hrow. apply list_elem_of_In, in_map_iff in Hrow as (y & <- & _).
    rewrite length_map, length_seqZ. reflexivity.
Qed.

Lemma build_ext {A} (W H : Z) (f g : Z -> Z -> A) :
  (forall x y, 0 <= x < W -> 0 <= y < H -> f x y = g x y) -> build W H f = build W H g.
Proof.
  intros Hfg. unfold build. f_equal. apply map_ext_in. intros y Hy. apply map_ext_in. intros x Hx.
  apply list_elem_of_In, elem_of_seqZ in Hx. apply list_elem_of_In, elem_of_seqZ in Hy.
  apply Hfg; lia.
Qed.

Lemma build_at {A} (d : A) (g : grid A) : wf g -> build (gw g) (gh g) (at_ d g) = g.
Proof.
  destruct g as [W H rows]. unfold wf. simpl. intros (HW & HH & Hlen & Hrows).
  unfold build. f_equal. apply list_eq. intros i. rewrite lookup_map_list.
  destruct (decide (i < Z.to_nat H)%nat) as [Hi|Hi].
  - rewrite lookup_seqZ_lt by lia. simpl.
    destruct (rows !! i) as [row|] eqn:E; [|apply lookup_ge_None in E; lia].
    f_equal. pose proof (proj1 (Forall_lookup _ _) Hrows i row E) as Hrow. simpl in Hrow.
    apply list_eq. intros j. rewrite lookup_map_list.
    destruct (decide (j < Z.to_nat W)%nat) as [Hj|Hj].
    + rewrite lookup_seqZ_lt by lia. simpl. unfold at_. simpl.
      rewrite !Z.add_0_l, !Nat2Z.id, E. simpl.
      destruct (row !! j) eqn:E'; [reflexivity|apply lookup_ge_None in E'; lia].
    + rewrite lookup_seqZ_ge by lia. symmetry. apply lookup_ge_None. lia.
  - rewrite lookup_seqZ_ge by lia. symmetry. apply lookup_ge_None. lia.
Qed.

Lemma crop_wf (img c : image) (r : region) : crop img r = Some c -> wf c.
Proof.
  destruct r as [[[x0 y0] x1] y1]. unfold crop.
  destruct ((x1 <? x0) || (y1 <? y0)) eqn:Hb; [discriminate|].
  intros [= <-]. apply orb_false_iff in Hb as [H1 H2].
  apply Z.ltb_ge in H1, H2. apply wf_build; lia.
Qed.

(** Pasting a region's own crop back leaves the image as it was. *)
Lemma paste_crop (img c : image) (r : region) :
  wf img -> crop img r = Some c -> paste img c r = Some img.
Proof.
  intros Hwf. destruct r as [[[x0 y0] x1] y1]. unfold crop.
  destruct ((x1 <? x0) || (y1 <? y0)) eqn:Hb; [discriminate|].
  intros [= <-]. unfold paste. simpl. rewrite !Z.eqb_refl. simpl. f_equal.
  rewrite <- (build_at black img Hwf) at 3. apply build_ext. intros x y Hx Hy.
  destruct ((x0 <=? x) && (x <? x1) && (y0 <=? y) && (y <? y1)) eqn:Hin; [|reflexivity].
  repeat rewrite andb_true_iff in Hin.
  unfold pix at 1. rewrite at_build by lia.
  replace (x0 + (x - x0)) with x by ring. replace (y0 + (y - y0)) with y by ring.
  assert (Hd : in_dom img x y = true).
  { unfold in_dom. repeat rewrite andb_true_iff. lia. }
  rewrite Hd. reflexivity.
Qed.

Section Oracles.

Variable layout : image -> option (list Layout.box).
Variable ocr : image -> option pystr.
Variable translate : pystr -> tr_result.
Variable inpaint : image -> mask -> option image.
Variable draw_text : image -> region -> pystr -> Z -> image.

(** A non-table region that needs no repaint leaves the loop state as it
    was. *)
Lemma process_box_nontable_same (rec : image -> option (image * image)) (st : loop_state)
    (b : Layout.box) :
  Layout.cls b <> 5 -> region_unchanged ocr translate (st_image st) b ->
  process_box ocr translate rec st b = Some st.
Proof.
  intros Hcls Hreg. unfold process_box. rewrite (proj2 (Z.eqb_neq _ _) Hcls).
  destruct (crop (st_image st) (region_of b)) as [c|] eqn:Hc; [|reflexivity].
  destruct (ocr c) as [src|] eqn:Ho; [|reflexivity].
  destruct (decide (src = [])) as [->|Hs].
  - rewrite bool_decide_eq_true_2 by reflexivity. cbv beta iota.
    rewrite bool_decide_eq_true_2 by reflexivity. reflexivity.
  - rewrite bool_decide_eq_false_2 by exact Hs.
    destruct (translate src) as [t| |] eqn:Ht; try reflexivity. cbv beta iota.
    rewrite (Hreg c src t Hc Ho Hs Ht). rewrite bool_decide_eq_true_2 by reflexivity. reflexivity.
Qed.

(** A non-table region whose OCR or translator fails leaves the loop state
    as it was. *)
Lemma process_box_fail_same (rec : image -> option (image * image)) (st : loop_state)
    (b : Layout.box) :
  Layout.cls b <> 5 -> ocr_or_translator_fails ocr translate (st_image st) b ->
  process_box ocr translate rec st b = Some st.
Proof.
  intros Hcls (c & Hc & Hfail). unfold process_box. rewrite (proj2 (Z.eqb_neq _ _) Hcls).
  rewrite Hc. destruct Hfail as [Ho|(src & Ho & Hs & Ht)].
  - rewrite Ho. reflexivity.
  - rewrite Ho. rewrite bool_decide_eq_false_2 by exact Hs.
    destruct Ht as [Ht|Ht]; rewrite Ht; reflexivity.
Qed.

(** The loop over regions that need no repaint leaves its state as it
    found it. *)
Lemma no_repaint_loop (fuel : nat) (img : image) (bs : list Layout.box) (st : loop_state) :
  (forall c out c', wf c -> no_repaint layout ocr translate c ->
     translate_image layout ocr translate inpaint draw_text fuel c = Some (out, c') -> out = c) ->
  wf img ->
  (forall b c, In b bs -> Layout.cls b = 5 -> crop img (region_of b) = Some c ->
     no_repaint layout ocr translate c) ->
  (forall b, In b bs -> Layout.cls b <> 5 -> region_unchanged ocr translate img b) ->
  box_loop ocr translate (translate_image layout ocr translate inpaint draw_text fuel)
    (mkState img [] []) bs = Some st ->
  st = mkState img [] [].
Proof.
  intros IH Hwf. induction bs as [|b bs IHbs]; intros Htab Hreg Hloop.
  - simpl in Hloop. congruence.
  - cbn [box_loop] in Hloop. unfold process_box in Hloop.
    cbn [st_image regions_to_clean draw_jobs] in Hloop.
    destruct (Layout.cls b =? 5) eqn:Hcls.
    + apply Z.eqb_eq in Hcls.
      destruct (crop img (region_of b)) as [c|] eqn:Hc; [|discriminate Hloop].
      destruct (translate_image layout ocr translate inpaint draw_text fuel c)
        as [[fc c']|] eqn:Hrec; [|discriminate Hloop].
      assert (fc = c) as ->.
      { apply (IH c fc c'); [exact (crop_wf _ _ _ Hc)| |exact Hrec].
        apply (Htab b c); [left; reflexivity|exact Hcls|exact Hc]. }
      rewrite (paste_crop img c _ Hwf Hc) in Hloop.
      apply IHbs; [intros b' c'' Hb'; apply Htab; right; exact Hb'
                  |intros b' Hb'; apply Hreg; right; exact Hb'|exact Hloop].
    + apply Z.eqb_neq in Hcls.
      assert (Hst : process_box ocr translate (translate_image layout ocr translate inpaint draw_text fuel)
                      (mkState img [] []) b = Some (mkState img [] [])).
      { apply process_box_nontable_same; [exact Hcls|]. apply Hreg; [left; reflexivity|exact Hcls]. }
      unfold process_box in Hst. cbn [st_image regions_to_clean draw_jobs] in Hst.
      rewrite (proj2 (Z.eqb_neq _ _) Hcls) in Hst. rewrite Hst in Hloop.
      apply IHbs; [intros b' c'' Hb'; apply Htab; right; exact Hb'
                  |intros b' Hb'; apply Hreg; right; exact Hb'|exact Hloop].
Qed.

End Oracles.

(** Claim C4: if no surviving region needs repaint (every region whose
    OCR and translation succeed gets back its own source text, down
    through table regions, or no region survives), [translate_image]
    returns the input image itself, leaves the input unchanged, and a second
    run on it gives the same image again. The detection, OCR and translation
    models are deterministic functions of the image and text. *)
Theorem no_repaint_returns_input
    (layout : image -> option (list Layout.box)) (ocr : image -> option pystr)
    (translate : pystr -> tr_result) (inpaint : image -> mask -> option image)
    (draw_text : image -> region -> pystr -> Z -> image)
    (fuel : nat) (img out img' : image)
    (Hwf : wf img) (Hnr : no_repaint layout ocr translate img)
    (Hrun : translate_image layout ocr translate inpaint draw_text fuel img = Some (out, img')) :
  out = img /\ img' = img /\
  translate_image layout ocr translate inpaint draw_text fuel img' = Some (out, img').
Proof.
  assert (Hmain : forall fuel img out img', wf img -> no_repaint layout ocr translate img ->
            translate_image layout ocr translate inpaint draw_text fuel img = Some (out, img') ->
            out = img /\ img' = img).
  { clear. intros fuel. induction fuel as [|fuel IH]; intros img out img' Hwf Hnr Hrun;
      [discriminate|].
    simpl in Hrun. destruct (layout img) as [result|] eqn:Hl.
    - destruct Hnr as [img0 Hl0|img0 result0 Hl0 Htab Hreg]; [congruence|].
      assert (result0 = result) as -> by congruence.
      destruct (box_loop ocr translate _ _ _) as [st|] eqn:Hloop; [|discriminate].
      rewrite (no_repaint_loop layout ocr translate inpaint draw_text fuel img0 _ st
                 (fun c o c' Hc Hn Hr => proj1 (IH c o c' Hc Hn Hr)) Hwf Htab Hreg Hloop) in Hrun.
      simpl in Hrun. injection Hrun as <- <-. split; reflexivity.
    - injection Hrun as <- <-. split; reflexivity. }
  destruct (Hmain fuel img out img' Hwf Hnr Hrun) as [-> ->].
  split; [reflexivity|]. split; [reflexivity|]. exact Hrun.
Qed.

Lemma no_repaint_returns_input_witness :
  let img0 := build 10 10 (fun x y => if (x =? 4) && (y =? 4) then black else white) in
  let layout := fun i : image =>
    if gw i =? 10 then Some [Layout.mkBox 0 0 4 4 5; Layout.mkBox 5 5 9 9 1] else Some [] in
  img0 = img0 /\ img0 = img0 /\
  translate_image layout (fun _ => Some (pys "a")) (fun s => TrStr s) (fun _ _ => None)
    (fun i _ _ _ => i) 3 img0 = Some (img0, img0).
Proof.
  intros img0 layout.
  apply (no_repaint_returns_input layout (fun _ => Some (pys "a")) (fun s => TrStr s)
           (fun _ _ => None) (fun i _ _ _ => i) 3 img0 img0 img0).
  - apply wf_build; lia.
  - eapply no_repaint_regions; [reflexivity| |].
    + intros b c Hb Hcls Hc. vm_compute in Hb.
      destruct Hb as [<-|[<-|[]]]; [|discriminate Hcls].
      vm_compute in Hc. injection Hc as <-.
      eapply no_repaint_regions; [reflexivity| |].
      * intros b' c' Hb'. vm_compute in Hb'. destruct Hb'.
      * intros b' Hb'. vm_compute in Hb'. destruct Hb'.
    + intros b Hb Hcls. vm_compute in Hb.
      destruct Hb as [<-|[<-|[]]]; [exfalso; apply Hcls; reflexivity|].
      intros c src t _ Ho _ Ht. congruence.
  - vm_compute. reflexivity.
Defined.

Section Frame.

Variable ocr : image -> option pystr.
Variable translate : pystr -> tr_result.
Variable inpaint : image -> mask -> option image.
Variable draw_text : image -> region -> pystr -> Z -> image.
(** The pixels [draw_multiline_text_horizontal] may write when drawing a
    text at a region with a font size. *)
Variable draw_footprint : region -> pystr -> Z -> Z -> Z -> bool.

(** [cv2.inpaint] rewrites only the pixels of the mask. *)
Hypothesis inpaint_local : forall img m r x y,
  inpaint img m = Some r -> in_dom img x y = true -> mpix m x y = 0 -> pix r x y = pix img x y.
(** Drawing text writes only inside its footprint. *)
Hypothesis draw_local : forall img r t s x y,
  draw_footprint r t s x y = false -> pix (draw_text img r t s) x y = pix img x y.

Lemma process_box_frame (rec : image -> option (image * image)) (st st' : loop_state)
    (b : Layout.box) (x y : Z) :
  process_box ocr translate rec st b = Some st' ->
  in_dom (st_image st) x y = true ->
  (Layout.cls b = 5 -> in_region (region_of b) x y = false) ->
  pix (st_image st') x y = pix (st_image st) x y /\
  gw (st_image st') = gw (st_image st) /\ gh (st_image st') = gh (st_image st).
Proof.
  intros Hp Hd Htab. unfold process_box in Hp.
  destruct (Layout.cls b =? 5) eqn:Hcls.
  - apply Z.eqb_eq in Hcls. specialize (Htab Hcls).
    destruct (crop (st_image st) (region_of b)) as [c|]; [|discriminate].
    destruct (rec c) as [[fc c']|]; [|discriminate].
    destruct (paste (st_image st) fc (region_of b)) as [img'|] eqn:Hpaste; [|discriminate].
    injection Hp as <-. cbn [st_image].
    revert Hpaste Htab. generalize (region_of b) as r. intros [[[x0 y0] x1] y1] Hpaste Htab.
    unfold paste in Hpaste.
    destruct (negb (gw fc =? x1 - x0) || negb (gh fc =? y1 - y0)); [discriminate|].
    injection Hpaste as <-. apply in_dom_bounds in Hd.
    split; [|split; reflexivity].
    unfold pix at 1. rewrite at_build by lia. unfold in_region in Htab. rewrite Htab. reflexivity.
  - destruct (crop (st_image st) (region_of b)) as [c|];
      [|injection Hp as <-; split; [reflexivity|split; reflexivity]].
    destruct (ocr c) as [src|]; [|injection Hp as <-; split; [reflexivity|split; reflexivity]].
    destruct (if bool_decide (src = []) then TrStr [] else translate src) as [t| |];
      [|injection Hp as <-; split; [reflexivity|split; reflexivity]
       |injection Hp as <-; split; [reflexivity|split; reflexivity]].
    destruct (bool_decide (t = src)); injection Hp as <-; split; try split; reflexivity.
Qed.

Lemma box_loop_frame (rec : image -> option (image * image)) (bs : list Layout.box)
    (st st' : loop_state) (x y : Z) :
  box_loop ocr translate rec st bs = Some st' ->
  in_dom (st_image st) x y = true ->
  (forall b, In b bs -> Layout.cls b = 5 -> in_region (region_of b) x y = false) ->
  pix (st_image st') x y = pix (st_image st) x y.
Proof.
  revert st. induction bs as [|b bs IH]; intros st Hl Hd Htab.
  - simpl in Hl. congruence.
  - cbn [box_loop] in Hl.
    destruct (process_box ocr translate rec st b) as [st1|] eqn:Hp; [|discriminate].
    destruct (process_box_frame rec st st1 b x y Hp Hd
                (Htab b (or_introl eq_refl))) as (Hpix & Hw & Hh).
    rewrite <- Hpix. apply (IH st1 Hl).
    + unfold in_dom in *. rewrite Hw, Hh. exact Hd.
    + intros b' Hb'. apply Htab. right. exact Hb'.
Qed.

Lemma simple_fill_frame (img : image) (m : mask) (x y : Z) :
  in_dom img x y = true -> mpix m x y <> 255 ->
  pix (simple_fill_clean img m) x y = pix img x y.
Proof.
  intros Hd Hm. apply in_dom_bounds in Hd. unfold simple_fill_clean.
  destruct (filter _ _) as [|p l]; [reflexivity|].
  cbv beta iota zeta. unfold pix at 1. rewrite at_build by lia.
  rewrite (proj2 (Z.eqb_neq _ _) Hm). reflexivity.
Qed.

Lemma clean_frame (img : image) (rs : list region) (x y : Z) :
  in_dom img x y = true -> existsb (fun bx => mask_covers bx x y) rs = false ->
  pix (clean inpaint img rs) x y = pix img x y.
Proof.
  intros Hd Hc.
  assert (Hm : mpix (create_mask (gw img) (gh img) rs) x y = 0).
  { apply in_dom_bounds in Hd. unfold mpix, create_mask. rewrite at_build by lia.
    rewrite Hc. reflexivity. }
  unfold clean, telea_clean.
  destruct (inpaint img (create_mask (gw img) (gh img) rs)) as [r|] eqn:Hi.
  - exact (inpaint_local _ _ _ _ _ Hi Hd Hm).
  - apply simple_fill_frame; [exact Hd|]. rewrite Hm. discriminate.
Qed.

Lemma draw_jobs_frame (jobs : list (region * pystr)) (acc : image) (x y : Z) :
  (forall r t s, In (r, t) jobs -> draw_footprint r t s x y = false) ->
  pix (fold_left (draw_one draw_text) jobs acc) x y = pix acc x y.
Proof.
  revert acc. induction jobs as [|[r t] jobs IH]; intros acc Hj; [reflexivity|].
  simpl. rewrite IH by (intros r' t' s' H; apply Hj; right; exact H).
  unfold draw_one. destruct r as [[[x1 y1] x2] y2].
  destruct (bool_decide (t = [])); [reflexivity|].
  apply draw_local. apply Hj. left. reflexivity.
Qed.

(** Claim C3 (amended): in [translate_image], (1) a non-table region whose
    OCR raises, or whose translator raises or returns a non-string, is
    skipped: the loop goes on with the remaining regions exactly as if it
    were absent, so it adds nothing to [regions_to_clean] or [draw_jobs]
    and aborts nothing; (2) the loop changes a pixel only inside a table
    region that is pasted back; (3) the final cleaning and drawing change a
    pixel only inside the inpainting mask of [regions_to_clean] or the
    footprint of a text drawn for [draw_jobs]. A failing region's pixels
    thus stay as they are except where such an area covers them. *)
Theorem failing_region_skipped :
  (forall rec st b bs, Layout.cls b <> 5 ->
     ocr_or_translator_fails ocr translate (st_image st) b ->
     box_loop ocr translate rec st (b :: bs) = box_loop ocr translate rec st bs) /\
  (forall rec st bs st' x y, box_loop ocr translate rec st bs = Some st' ->
     in_dom (st_image st) x y = true ->
     (forall b, In b bs -> Layout.cls b = 5 -> in_region (region_of b) x y = false) ->
     pix (st_image st') x y = pix (st_image st) x y) /\
  (forall st x y, in_dom (st_image st) x y = true ->
     existsb (fun bx => mask_covers bx x y) (regions_to_clean st) = false ->
     (forall r t s, In (r, t) (draw_jobs st) -> draw_footprint r t s x y = false) ->
     pix (finish inpaint draw_text st) x y = pix (st_image st) x y).
Proof.
  split; [|split].
  - intros rec st b bs Hcls Hfail. cbn [box_loop].
    rewrite (process_box_fail_same ocr translate rec st b Hcls Hfail). reflexivity.
  - intros rec st bs st' x y Hl Hd Htab. exact (box_loop_frame rec bs st st' x y Hl Hd Htab).
  - intros st x y Hd Hc Hj. unfold finish.
    destruct (regions_to_clean st) as [|r rs] eqn:E; [reflexivity|].
    rewrite draw_jobs_frame by exact Hj. apply clean_frame; [exact Hd|].
    exact Hc.
Qed.

End Frame.

Lemma failing_region_skipped_witness :
  let img0 := build 10 10 (fun x y => if (x =? 4) && (y =? 4) then black else white) in
  let ocr := fun c : image => if gw c =? 6 then None else Some (pys "a") in
  box_loop ocr (fun _ => TrStr []) (fun i => Some (i, i)) (mkState img0 [] [])
    [Layout.mkBox 0 0 6 6 1; Layout.mkBox 3 3 10 9 1]
  = box_loop ocr (fun _ => TrStr []) (fun i => Some (i, i)) (mkState img0 [] [])
    [Layout.mkBox 3 3 10 9 1].
Proof.
  intros img0 ocr.
  apply (proj1 (failing_region_skipped ocr (fun _ => TrStr []) (fun _ _ => None) (fun i _ _ _ => i)
                  (fun _ _ _ _ _ => false)
                  ltac:(intros img m r x y Hi; discriminate Hi)
                  ltac:(intros img r t s x y _; reflexivity))).
  - discriminate.
  - exists (match crop img0 (0, 0, 6, 6) with Some c => c | None => img0 end).
    split; [vm_compute; reflexivity|]. left. vm_compute. reflexivity.
Defined.

(** Claim C3 as stated (a failing region's pixels are left untouched)
    fails: region A = (0,0,6,6) fails in OCR, region B = (3,3,10,9)
    overlaps it and is translated to a different (empty) text, so B is
    inpainted; with [cv2.inpaint] raising, [simple_fill_clean] fills B's mask
    with the mean of its white boundary, and the black pixel (4,4) of A
    turns white. No text is drawn, the translation being empty. *)
Lemma failing_region_pixels_counterexample :
  let img0 := build 10 10 (fun x y => if (x =? 4) && (y =? 4) then black else white) in
  let layout := fun i : image =>
    if gw i =? 10 then Some [Layout.mkBox 0 0 6 6 1; Layout.mkBox 3 3 10 9 1] else None in
  let ocr := fun c : image => if gw c =? 6 then None else Some (pys "a") in
  ocr_or_translator_fails ocr (fun _ => TrStr []) img0 (Layout.mkBox 0 0 6 6 1) /\
  in_region (region_of (Layout.mkBox 0 0 6 6 1)) 4 4 = true /\
  pix img0 4 4 = black /\
  match translate_image layout ocr (fun _ => TrStr []) (fun _ _ => None) (fun i _ _ _ => i) 2 img0 with
  | Some (out, _) => pix out 4 4 = white
  | None => False
  end.
Proof.
  intros img0 layout ocr. split; [|split; [|split]].
  - exists (match crop img0 (0, 0, 6, 6) with Some c => c | None => img0 end).
    split; [vm_compute; reflexivity|]. left. vm_compute. reflexivity.
  - vm_compute. reflexivity.
  - vm_compute. reflexivity.
  - vm_compute. reflexivity.
Qed.

End PipelineProofs.

(** * Further properties of the code *)

Module SchedulerExtra.
Import PyFacts Scheduler SchedulerProofs.

Lemma length_filter_le {A} (f : A -> bool) (l : list A) : (length (List.filter f l) <= length l)%nat.
Proof. induction l as [|a l IH]; simpl; [lia|]. destruct (f a); simpl; lia. Qed.

Lemma length_filter_eq_forallb {A} (f : A -> bool) (l : list A) :
  length (List.filter f l) = length l <-> forallb f l = true.
Proof.
  induction l as [|a l IH]; simpl; [tauto|].
  destruct (f a); simpl.
  - rewrite <- IH. lia.
  - pose proof (length_filter_le f l). split; [lia|discriminate].
Qed.

Lemma update_record_lookup tid f s t :
  active_translations (update_record tid f s) !! t =
  if bool_decide (t = tid) then f <$> active_translations s !! tid
  else active_translations s !! t.
Proof.
  unfold update_record. case_bool_decide as Ht.
  - subst. destruct (active_translations s !! tid) eqn:E; simpl; [|by rewrite E].
    by rewrite lookup_insert_eq.
  - destruct (active_translations s !! tid); simpl; [|done].
    by rewrite lookup_insert_ne by congruence.
Qed.

Section Drain.
Variable MAX : Z.

Lemma drain_loop_stops q s :
  pending_queue (drain_loop MAX q s) = [] \/ MAX <= _running_count (drain_loop MAX q s).
Proof.
  revert s. induction q as [|e q IH]; intros s; simpl; [by left|].
  destruct (_running_count s <? MAX) eqn:Hlt; [apply IH|].
  right. apply Z.ltb_ge in Hlt. exact Hlt.
Qed.

(** What a drain leaves of an id none of whose entries it meets. *)
Lemma drain_loop_other t q s :
  (forall e, In e q -> task_id e <> t) ->
  active_tasks (drain_loop MAX q s) !! t = active_tasks s !! t /\
  active_translations (drain_loop MAX q s) !! t = active_translations s !! t.
Proof.
  revert s. induction q as [|e q IH]; intros s Hq; simpl; [done|].
  destruct (_running_count s <? MAX); [|done].
  match goal with |- context [drain_loop MAX q ?s'] =>
    destruct (IH s' (fun e' He' => Hq e' (or_intror He'))) as [IH1 IH2] end.
  rewrite IH1, IH2. unfold _start_task. simpl.
  assert (Hne : task_id e <> t) by (apply Hq; left; reflexivity).
  rewrite lookup_insert_ne by exact Hne.
  rewrite update_record_tasks, update_record_lookup.
  rewrite bool_decide_eq_false_2 by congruence. done.
Qed.

Lemma drain_loop_keeps_tasks t q s :
  is_Some (active_tasks s !! t) -> is_Some (active_tasks (drain_loop MAX q s) !! t).
Proof.
  revert s. induction q as [|e q IH]; intros s Ht; simpl; [done|].
  destruct (_running_count s <? MAX); [|done].
  apply IH. unfold _start_task. simpl. rewrite update_record_tasks.
  destruct (decide (t = task_id e)) as [->|Hne]; [by rewrite lookup_insert_eq|].
  by rewrite lookup_insert_ne by congruence.
Qed.

Lemma drain_loop_keeps_running t q s :
  active_translations s !! t = Some (mkRec Running stage_dequeued) ->
  active_translations (drain_loop MAX q s) !! t = Some (mkRec Running stage_dequeued).
Proof.
  revert s. induction q as [|e q IH]; intros s Ht; simpl; [done|].
  destruct (_running_count s <? MAX); [|done].
  apply IH. unfold _start_task. simpl. rewrite update_record_lookup. simpl.
  case_bool_decide as He; [|done]. subst. by rewrite Ht.
Qed.

Lemma drain_loop_prefix q s :
  exists k, pending_queue (drain_loop MAX q s) = drop k q /\
    forall e, In e (take k q) ->
      is_Some (active_tasks (drain_loop MAX q s) !! task_id e) /\
      (is_Some (active_translations s !! task_id e) ->
       active_translations (drain_loop MAX q s) !! task_id e = Some (mkRec Running stage_dequeued)).
Proof.
  revert s. induction q as [|e q IH]; intros s; simpl.
  - exists 0%nat. split; [done|]. intros e []. 
  - destruct (_running_count s <? MAX) eqn:Hlt.
    + set (s' := _start_task (task_id e) (config e)
                   (update_record (task_id e) (fun _ => mkRec Running stage_dequeued)
                      (set_pending_queue q s))).
      destruct (IH s') as [k [Hk Hin]]. exists (S k). split; [exact Hk|].
      intros e' [<-|He'].
      * split.
        -- apply drain_loop_keeps_tasks. unfold s', _start_task. simpl. by rewrite lookup_insert_eq.
        -- intros Hs. apply drain_loop_keeps_running. unfold s', _start_task. simpl.
           rewrite update_record_lookup, bool_decide_eq_true_2 by done.
           cbn [set_pending_queue active_translations].
           destruct Hs as [r Hr]. by rewrite Hr.
      * destruct (Hin e' He') as [H1 H2]. split; [exact H1|].
        intros Hs. apply H2. unfold s', _start_task. simpl. rewrite update_record_lookup.
        case_bool_decide as Heq; [|exact Hs].
        rewrite <- Heq. cbn [set_pending_queue active_translations].
        destruct Hs as [r Hr]. rewrite Hr. simpl. by eexists.
    + exists 0%nat. split; [done|]. intros e' [].
Qed.

Lemma drain_queue_other t s :
  (forall e, In e (pending_queue s) -> task_id e <> t) ->
  active_tasks (drain_queue MAX s) !! t = active_tasks s !! t /\
  active_translations (drain_queue MAX s) !! t = active_translations s !! t.
Proof.
  intros Hq. unfold drain_queue. destruct (pending_queue s) as [|e0 q0] eqn:E; [done|].
  assert (Hpre : forall e, In e (sort_by_created (e0 :: q0)) -> task_id e <> t).
  { intros e He. apply (Permutation_in _ (sort_by_created_perm _)) in He.
    by apply Hq. }
  destruct (drain_loop_other t _ (set_pending_queue (sort_by_created (e0 :: q0)) s) Hpre) as [A B].
  split; [exact A|exact B].
Qed.

(** [drain_queue] stops only when the pending queue is empty or the number
    of running jobs has reached [MAX_CONCURRENT]. *)
Theorem drain_queue_stops_only_when_empty_or_full (s : sched) :
  pending_queue (drain_queue MAX s) = [] \/ MAX <= _running_count (drain_queue MAX s).
Proof.
  unfold drain_queue. destruct (pending_queue s) eqn:E; [by left|]. apply drain_loop_stops.
Qed.

(** [drain_queue] starts the jobs of a prefix of the queue sorted by
    [created_at] and keeps the rest of the sorted queue in order: every
    started job is in [active_tasks] afterwards, and its record, when it
    has one, reads running with the dequeued stage. *)
Theorem drain_queue_starts_sorted_prefix (s : sched) :
  exists k, pending_queue (drain_queue MAX s) = drop k (sort_by_created (pending_queue s)) /\
    forall e, In e (take k (sort_by_created (pending_queue s))) ->
      is_Some (active_tasks (drain_queue MAX s) !! task_id e) /\
      (is_Some (active_translations s !! task_id e) ->
       active_translations (drain_queue MAX s) !! task_id e = Some (mkRec Running stage_dequeued)).
Proof.
  unfold drain_queue. destruct (pending_queue s) as [|e0 q0] eqn:E.
  - exists 0%nat. split; [done|]. intros e [].
  - destruct (drain_loop_prefix (sort_by_created (e0 :: q0))
                (set_pending_queue (sort_by_created (e0 :: q0)) s)) as [k [Hk Hin]].
    exists k. split; [exact Hk|]. intros e He. exact (Hin e He).
Qed.


End Drain.


Lemma remove_from_queue_state (tid : pystr) (s : sched) :
  pending_queue (snd (remove_from_queue tid s)) =
    List.filter (fun e => negb (bool_decide (task_id e = tid))) (pending_queue s) /\
  active_tasks (snd (remove_from_queue tid s)) = active_tasks s /\
  active_translations (snd (remove_from_queue tid s)) = active_translations s /\
  history (snd (remove_from_queue tid s)) = history s.
Proof.
  unfold remove_from_queue. case_bool_decide as Hne; simpl; [done|].
  repeat split; try done. symmetry.
  set (f := fun e : entry => negb (bool_decide (task_id e = tid))) in *.
  assert (Hall : forallb f (pending_queue s) = true).
  { apply length_filter_eq_forallb.
    destruct (decide (length (List.filter f (pending_queue s)) = length (pending_queue s))); [done|].
    contradiction. }
  apply filter_all_true. intros z Hz. apply forallb_forall with (x := z) in Hall; done.
Qed.

(** [remove_from_queue] reports [True] exactly when some pending entry has
    the id; afterwards the queue is the old one without those entries, in
    the same order, and nothing else changes. *)
Theorem remove_from_queue_result (tid : pystr) (s : sched) :
  fst (remove_from_queue tid s) = existsb (fun e => bool_decide (task_id e = tid)) (pending_queue s) /\
  pending_queue (snd (remove_from_queue tid s)) =
    List.filter (fun e => negb (bool_decide (task_id e = tid))) (pending_queue s) /\
  active_tasks (snd (remove_from_queue tid s)) = active_tasks s /\
  active_translations (snd (remove_from_queue tid s)) = active_translations s /\
  history (snd (remove_from_queue tid s)) = history s.
Proof.
  split; [|apply remove_from_queue_state].
  unfold remove_from_queue.
  set (f := fun e : entry => negb (bool_decide (task_id e = tid))).
  assert (Hex : existsb (fun e => bool_decide (task_id e = tid)) (pending_queue s) =
                negb (forallb f (pending_queue s))).
  { unfold f. induction (pending_queue s) as [|e q IH]; simpl; [done|].
    rewrite IH. by destruct (bool_decide (task_id e = tid)). }
  rewrite Hex. case_bool_decide as Hne; simpl.
  - destruct (forallb f (pending_queue s)) eqn:Hall; [|done].
    exfalso. apply Hne. by apply length_filter_eq_forallb.
  - destruct (forallb f (pending_queue s)) eqn:Hall; [done|].
    exfalso. destruct (decide (length (List.filter f (pending_queue s)) = length (pending_queue s))) as [Heq|];
      [|contradiction].
    apply length_filter_eq_forallb in Heq. congruence.
Qed.

(** [schedule_translation] starts the job exactly when fewer than
    [MAX_CONCURRENT] jobs run, leaving the queue alone; otherwise it
    appends [(created_at_iso or now, task_id, config)] at the end of the
    queue and leaves [active_tasks] alone. *)
Theorem schedule_translation_outcome (MAX_CONCURRENT : Z) (tid : pystr) (cfg : Z)
    (created now : pystr) (s : sched) :
  let '(st, s') := schedule_translation MAX_CONCURRENT tid cfg created now s in
  (_running_count s < MAX_CONCURRENT ->
     st = Running /\ active_tasks s' !! tid = Some (mkTask cfg false) /\
     pending_queue s' = pending_queue s) /\
  (MAX_CONCURRENT <= _running_count s ->
     st = Queued /\ active_tasks s' = active_tasks s /\
     pending_queue s' = pending_queue s ++ [mkEntry (match created with [] => now | _ => created end) tid cfg]).
Proof.
  unfold schedule_translation.
  destruct (Z.ltb_spec (_running_count s) MAX_CONCURRENT) as [Hlt|Hge]; split; intros H; try lia.
  - unfold _start_task. simpl. rewrite lookup_insert_eq, update_record_pending. done.
  - simpl. rewrite !update_record_tasks, !update_record_pending. done.
Qed.

Lemma index_map_from_range idx l m t p :
  index_map_from idx l m !! t = Some p ->
  m !! t = Some p \/ idx + 1 <= p <= idx + Z.of_nat (length l).
Proof.
  revert idx m. induction l as [|e l IH]; intros idx m Hp; simpl in *; [by left|].
  destruct (IH _ _ Hp) as [Hm|Hr]; [|right; lia].
  destruct (decide (t = task_id e)) as [->|Hne].
  - rewrite lookup_insert_eq in Hm. injection Hm as <-. right. lia.
  - rewrite lookup_insert_ne in Hm by congruence. by left.
Qed.

Lemma index_map_from_dom idx l m t :
  is_Some (index_map_from idx l m !! t) <-> is_Some (m !! t) \/ exists e, In e l /\ task_id e = t.
Proof.
  revert idx m. induction l as [|e l IH]; intros idx m; simpl.
  - split; [by left|]. intros [H|[e [[] _]]]. exact H.
  - rewrite IH. destruct (decide (t = task_id e)) as [->|Hne].
    + rewrite lookup_insert_eq. split; [intros _; right; exists e; auto|]. intros _. left. by eexists.
    + rewrite lookup_insert_ne by congruence. split.
      * intros [H|[e' [He' Ht]]]; [by left|]. right. exists e'. auto.
      * intros [H|[e' [[<-|He'] Ht]]]; [by left|congruence|]. right. exists e'. auto.
Qed.

(** The queue position [list_tasks] shows is set only for a queued task,
    lies between 1 and the queue length, and is set for a queued task
    exactly when some pending entry has its id. *)
Theorem queue_position_in_range (q : list entry) (st : status) (tid : pystr) :
  (forall p, queue_position q st tid = Some p -> st = Queued /\ 1 <= p <= Z.of_nat (length q)) /\
  (is_Some (queue_position q Queued tid) <-> exists e, In e q /\ task_id e = tid).
Proof.
  unfold queue_position, queue_index_map. split.
  - intros p Hp. destruct st; try discriminate. split; [done|].
    apply index_map_from_range in Hp as [Hp|Hp]; [done|].
    rewrite (Permutation_length (sort_by_created_perm q)) in Hp. lia.
  - rewrite index_map_from_dom. split.
    + intros [[x Hx]|[e [He Ht]]]; [done|]. exists e. split; [|done].
      eapply Permutation_in; [apply sort_by_created_perm|exact He].
    + intros [e [He Ht]]. right. exists e. split; [|done].
      eapply Permutation_in; [symmetry; apply sort_by_created_perm|exact He].
Qed.

End SchedulerExtra.

Module TasksRouterExtra.
Import PyFacts Scheduler TasksRouter SchedulerExtra.

Lemma py_lstrip_split (s : pystr) :
  exists p, s = p ++ py_lstrip s /\ Forall (fun c => py_isspace c = true) p.
Proof.
  induction s as [|c s IH]; simpl; [by exists []|].
  destruct (py_isspace c) eqn:Hc.
  - destruct IH as [p [Hp Hf]]. exists (c :: p). split; [simpl; congruence|by constructor].
  - exists []. split; [done|constructor].
Qed.

Lemma py_lstrip_head (s : pystr) :
  match py_lstrip s with c :: _ => py_isspace c = false | [] => True end.
Proof.
  induction s as [|c s IH]; simpl; [done|]. destruct (py_isspace c) eqn:Hc; [exact IH|exact Hc].
Qed.

Lemma py_lstrip_no_space (s : pystr) :
  match s with c :: _ => py_isspace c = false | [] => True end -> py_lstrip s = s.
Proof. destruct s as [|c s]; simpl; [done|]. intros Hc. by rewrite Hc. Qed.

Lemma py_lstrip_idem (s : pystr) : py_lstrip (py_lstrip s) = py_lstrip s.
Proof. apply py_lstrip_no_space, py_lstrip_head. Qed.

Lemma py_strip_idem (s : pystr) : py_strip (py_strip s) = py_strip s.
Proof.
  unfold py_strip, py_rstrip.
  set (y := py_lstrip s). set (w := py_lstrip (rev y)).
  destruct (py_lstrip_split (rev y)) as [p [Hp _]]. fold w in Hp.
  assert (Hy : y = rev w ++ rev p) by (rewrite <- rev_app_distr, <- Hp, rev_involutive; done).
  assert (Hz : py_lstrip (rev w) = rev w).
  { apply py_lstrip_no_space. pose proof (py_lstrip_head s) as Hh. fold y in Hh.
    rewrite Hy in Hh. destruct (rev w); [done|exact Hh]. }
  rewrite Hz, rev_involutive. unfold w at 1. by rewrite py_lstrip_idem.
Qed.

Lemma before_comma_no_comma (s : pystr) : ~ In 44 (before_comma s).
Proof.
  induction s as [|c s IH]; simpl; [tauto|].
  destruct (Z.eqb_spec c 44); simpl; [tauto|]. intros [->|H]; [lia|tauto].
Qed.

Lemma before_comma_id (s : pystr) : ~ In 44 s -> before_comma s = s.
Proof.
  induction s as [|c s IH]; simpl; [done|]. intros Hs.
  destruct (Z.eqb_spec c 44); [tauto|]. f_equal. tauto.
Qed.

Lemma py_strip_incl (s : pystr) (c : Z) : In c (py_strip s) -> In c s.
Proof.
  unfold py_strip, py_rstrip. intros H. apply in_rev in H.
  destruct (py_lstrip_split (rev (py_lstrip s))) as [p [Hp _]].
  assert (H' : In c (rev (py_lstrip s))) by (rewrite Hp; apply in_or_app; auto).
  apply in_rev in H'. destruct (py_lstrip_split s) as [p' [Hp' _]].
  rewrite Hp'. apply in_or_app. auto.
Qed.

(** The requester IP taken from a non-empty [X-Forwarded-For] header is
    its first comma-separated field, stripped: it never contains a comma
    and has no surrounding whitespace; and a header holding a single such
    value is taken verbatim whatever the connection's address. *)
Theorem requester_ip_from_header (forwarded : pystr) (client : option pystr) :
  forwarded <> [] ->
  ~ In 44 (requester_ip forwarded client) /\
  py_strip (requester_ip forwarded client) = requester_ip forwarded client /\
  (~ In 44 forwarded -> py_strip forwarded = forwarded -> requester_ip forwarded client = forwarded).
Proof.
  intros Hf. unfold requester_ip. destruct forwarded as [|c f]; [done|].
  split; [|split].
  - intros H. apply py_strip_incl in H. exact (before_comma_no_comma _ H).
  - apply py_strip_idem.
  - intros Hc Hs. rewrite before_comma_id by exact Hc. exact Hs.
Qed.

Lemma requester_ip_from_header_witness :
  requester_ip (pys "10.0.0.1, 10.0.0.2") (Some (pys "127.0.0.1")) = pys "10.0.0.1" /\
  requester_ip (pys "10.0.0.9") (Some (pys "127.0.0.1")) = pys "10.0.0.9".
Proof.
  split; [vm_compute; reflexivity|].
  apply (requester_ip_from_header (pys "10.0.0.9") (Some (pys "127.0.0.1")) ltac:(discriminate)).
  - intros H. vm_compute in H. repeat (destruct H as [H|H]; [discriminate H|]). exact H.
  - vm_compute. reflexivity.
Defined.

Section Delete.
Variable MAX_CONCURRENT : Z.
Variable REQ : bool.
Variable get_task_full : pystr -> outcome (option task_full).
Variable get_upload_ip : pystr -> pystr.
Variable delete_history : pystr -> outcome bool.

Definition stored_owner_ip (tf : task_full) : pystr :=
  match tf_owner_ip tf with [] => get_upload_ip (file_id (tf_filename tf)) | o => o end.

Lemma delete_fold_unauthorized (requester provided : pystr) (ids : list pystr) (s : sched) (r : response) :
  (forall tid tf, In tid ids -> get_task_full tid = Ok (Some tf) ->
     authorized REQ provided (tf_owner_token tf) (stored_owner_ip tf) requester = false) ->
  fst (fold_left (delete_one MAX_CONCURRENT REQ get_task_full get_upload_ip delete_history requester provided)
         ids (s, r)) = s /\
  deleted (snd (fold_left (delete_one MAX_CONCURRENT REQ get_task_full get_upload_ip delete_history
                             requester provided) ids (s, r))) = deleted r /\
  cancelled (snd (fold_left (delete_one MAX_CONCURRENT REQ get_task_full get_upload_ip delete_history
                               requester provided) ids (s, r))) = cancelled r.
Proof.
  revert r. induction ids as [|tid ids IH]; intros r Hids; simpl; [done|].
  assert (Hrest : forall tid' tf, In tid' ids -> get_task_full tid' = Ok (Some tf) ->
            authorized REQ provided (tf_owner_token tf) (stored_owner_ip tf) requester = false)
    by (intros tid' tf H; apply Hids; right; exact H).
  unfold delete_one at 2. destruct (get_task_full tid) as [[tf|]|m] eqn:Hg.
  - pose proof (Hids tid tf (or_introl eq_refl) Hg) as Ha. unfold stored_owner_ip in Ha.
    rewrite Ha. simpl. apply (IH (set_error tid msg_denied r) Hrest).
  - apply (IH (add_not_found tid r) Hrest).
  - apply (IH (set_error tid m r) Hrest).
Qed.

End Delete.

(** In strict mode ([DOWNLOAD_REQUIRE_OWNER_TOKEN]) a delete request that
    carries no owner token leaves the scheduler state as it is and neither
    deletes nor cancels any task, whatever its IP. *)
Theorem delete_tasks_strict_needs_token (MAX_CONCURRENT : Z)
    (get_task_full : pystr -> outcome (option task_full)) (get_upload_ip : pystr -> pystr)
    (delete_history : pystr -> outcome bool)
    (forwarded : pystr) (client : option pystr) (ids : list pystr) (s : sched) :
  fst (delete_tasks MAX_CONCURRENT true get_task_full get_upload_ip delete_history
         forwarded client [] ids s) = s /\
  deleted (snd (delete_tasks MAX_CONCURRENT true get_task_full get_upload_ip delete_history
                  forwarded client [] ids s)) = [] /\
  cancelled (snd (delete_tasks MAX_CONCURRENT true get_task_full get_upload_ip delete_history
                    forwarded client [] ids s)) = [].
Proof.
  unfold delete_tasks. apply delete_fold_unauthorized. intros tid tf _ _. reflexivity.
Qed.

Section Authorized.
Variable MAX_CONCURRENT : Z.
Variable REQ : bool.
Variable get_task_full : pystr -> outcome (option task_full).
Variable get_upload_ip : pystr -> pystr.
Variable delete_history : pystr -> outcome bool.

(** Deleting an authorized task that is not running leaves no pending
    entry and no in-memory record for its id, keeps the other pending
    entries in order and starts or stops no job. *)
Theorem delete_authorized_queued_task (requester provided tid : pystr) (tf : task_full)
    (s : sched) (r : response) :
  get_task_full tid = Ok (Some tf) ->
  authorized REQ provided (tf_owner_token tf) (stored_owner_ip get_upload_ip tf) requester = true ->
  active_tasks s !! tid = None ->
  let '(s', r') := delete_one MAX_CONCURRENT REQ get_task_full get_upload_ip delete_history
                     requester provided (s, r) tid in
  pending_queue s' = List.filter (fun e => negb (bool_decide (task_id e = tid))) (pending_queue s) /\
  (forall e, In e (pending_queue s') -> task_id e <> tid) /\
  active_translations s' !! tid = None /\
  active_tasks s' = active_tasks s.
Proof.
  intros Hg Ha Ht. unfold delete_one. rewrite Hg. unfold stored_owner_ip in Ha. rewrite Ha. simpl.
  rewrite bool_decide_eq_false_2 by (rewrite Ht; intros [? H]; discriminate).
  destruct (remove_from_queue_state tid s) as [Hq [Hat [Htr _]]].
  destruct (remove_from_queue tid s) as [removed s1] eqn:Hr. simpl in Hq, Hat, Htr.
  assert (Hgoal : forall s2, pending_queue s2 = pending_queue s1 -> active_tasks s2 = active_tasks s1 ->
            pending_queue (pop_translation tid s2) =
              List.filter (fun e => negb (bool_decide (task_id e = tid))) (pending_queue s) /\
            (forall e, In e (pending_queue (pop_translation tid s2)) -> task_id e <> tid) /\
            active_translations (pop_translation tid s2) !! tid = None /\
            active_tasks (pop_translation tid s2) = active_tasks s).
  { intros s2 Hp2 Ha2. simpl. rewrite Hp2, Ha2, Hq, Hat. split; [done|]. split.
    - intros e He. apply filter_In in He as [_ He]. by case_bool_decide.
    - split; [apply lookup_delete_eq|done]. }
  destruct removed; destruct (delete_history tid) as [[|]|m]; apply Hgoal; done.
Qed.

(** Deleting an authorized running task that has no pending entry asks
    for its cancellation, which never fails: the id is listed as
    cancelled, the job stays in [active_tasks] flagged as cancelled until
    it ends, and its in-memory record is dropped. *)
Theorem delete_authorized_running_task (requester provided tid : pystr) (tf : task_full)
    (t : task) (s : sched) (r : response) :
  get_task_full tid = Ok (Some tf) ->
  authorized REQ provided (tf_owner_token tf) (stored_owner_ip get_upload_ip tf) requester = true ->
  active_tasks s !! tid = Some t ->
  (forall e, In e (pending_queue s) -> task_id e <> tid) ->
  let '(s', r') := delete_one MAX_CONCURRENT REQ get_task_full get_upload_ip delete_history
                     requester provided (s, r) tid in
  cancelled r' = cancelled r ++ [tid] /\
  active_tasks s' !! tid = Some (mkTask (task_config t) true) /\
  active_translations s' !! tid = None.
Proof.
  intros Hg Ha Ht Hq. unfold delete_one. rewrite Hg. unfold stored_owner_ip in Ha. rewrite Ha. simpl.
  rewrite bool_decide_eq_true_2 by (rewrite Ht; by eexists).
  unfold cancel_task. rewrite Ht.
  set (s1 := set_active_tasks (<[tid := mkTask (task_config t) true]> (active_tasks s)) s).
  destruct (drain_queue_other MAX_CONCURRENT tid s1 Hq) as [Hd _].
  assert (Hs1 : active_tasks (drain_queue MAX_CONCURRENT s1) !! tid = Some (mkTask (task_config t) true))
    by (rewrite Hd; unfold s1; simpl; apply lookup_insert_eq).
  destruct (delete_history tid) as [[|]|m]; simpl; (split; [done|split; [exact Hs1|apply lookup_delete_eq]]).
Qed.

End Authorized.

Lemma delete_authorized_queued_task_witness :
  let gtf := fun _ : pystr => @Ok (option task_full) (Some (mkFull (pys "1.2.3.4") [] (pys "f.pdf"))) in
  let s := mkSched {[pys "a" := mkRec Queued stage_queued]} ∅
                   [mkEntry (pys "t1") (pys "a") 0; mkEntry (pys "t2") (pys "b") 0] ∅ in
  let res := delete_one 1 false gtf (fun _ => []) (fun _ => Ok true) (pys "1.2.3.4") []
               (s, mkResp [] [] [] ∅) (pys "a") in
  pending_queue (fst res) = [mkEntry (pys "t2") (pys "b") 0] /\
  active_translations (fst res) !! pys "a" = None.
Proof.
  intros gtf s res.
  pose proof (delete_authorized_queued_task 1 false gtf (fun _ => []) (fun _ => Ok true)
                (pys "1.2.3.4") [] (pys "a") (mkFull (pys "1.2.3.4") [] (pys "f.pdf")) s
                (mkResp [] [] [] ∅) eq_refl ltac:(vm_compute; reflexivity) eq_refl) as H.
  fold res in H. destruct res as [s' r']. destruct H as [Hq [_ [Htr _]]].
  cbn [fst snd]. split; [rewrite Hq; vm_compute; reflexivity|exact Htr].
Defined.

Lemma delete_authorized_running_task_witness :
  let gtf := fun _ : pystr => @Ok (option task_full) (Some (mkFull [] (pys "k") (pys "f.pdf"))) in
  let s := mkSched {[pys "a" := mkRec Running stage_init]} {[pys "a" := mkTask 3 false]} [] ∅ in
  let res := delete_one 1 true gtf (fun _ => []) (fun _ => Ok true) [] (pys "k")
               (s, mkResp [] [] [] ∅) (pys "a") in
  cancelled (snd res) = [pys "a"] /\ active_tasks (fst res) !! pys "a" = Some (mkTask 3 true).
Proof.
  intros gtf s res.
  pose proof (delete_authorized_running_task 1 true gtf (fun _ => []) (fun _ => Ok true)
                [] (pys "k") (pys "a") (mkFull [] (pys "k") (pys "f.pdf")) (mkTask 3 false) s
                (mkResp [] [] [] ∅) eq_refl ltac:(vm_compute; reflexivity) eq_refl
                ltac:(intros e [])) as H.
  fold res in H. destruct res as [s' r']. destruct H as [Hc [Ht _]].
  cbn [fst snd]. split; [exact Hc|exact Ht].
Defined.

End TasksRouterExtra.

Module LayoutExtra.
Import PyFacts Layout LayoutProofs.

Lemma keep_loop_sublist tol kept l :
  exists added, keep_loop tol kept l = kept ++ added /\ added `sublist_of` l.
Proof.
  revert kept. induction l as [|b l IH]; intros kept; simpl.
  - exists []. rewrite app_nil_r. split; [done|constructor].
  - destruct (existsb _ kept).
    + destruct (IH kept) as [added [-> Hs]]. exists added. split; [done|]. by constructor.
    + destruct (IH (kept ++ [b])) as [added [-> Hs]]. exists (b :: added).
      rewrite <- app_assoc. split; [done|]. by constructor.
Qed.

Lemma StronglySorted_sublist {A} (R : A -> A -> Prop) (l1 l2 : list A) :
  l1 `sublist_of` l2 -> StronglySorted R l2 -> StronglySorted R l1.
Proof.
  induction 1 as [|x l1 l2 Hs IH|x l1 l2 Hs IH]; intros H2; [constructor| |].
  - apply StronglySorted_inv in H2 as [H2 Hx]. constructor; [by apply IH|].
    rewrite Forall_forall in *. intros z Hz. apply Hx.
    apply (sublist_subseteq _ _ Hs). first [exact Hz|by apply list_elem_of_In].
  - apply StronglySorted_inv in H2 as [H2 _]. by apply IH.
Qed.

Lemma StronglySorted_snoc_inv {A} (R : A -> A -> Prop) (l : list A) (x : A) :
  StronglySorted R (l ++ [x]) -> StronglySorted R l /\ Forall (fun y => R y x) l.
Proof.
  induction l as [|y l IH]; simpl; intros H; [split; constructor|].
  apply StronglySorted_inv in H as [H Hy]. destruct (IH H) as [H1 H2].
  apply Forall_app in Hy as [Hy1 Hy2].
  split; constructor; [done|done|exact (Forall_inv Hy2)|done].
Qed.

Lemma insert_by_area_last b l :
  Forall (fun y => area_ge y b) l -> insert_by_area b l = l ++ [b].
Proof.
  induction l as [|y l IH]; simpl; intros H; [done|].
  pose proof (Forall_inv H) as Hy. apply Forall_inv_tail in H.
  destruct (Qltb (_area y) (_area b)) eqn:E.
  - apply Qltb_true in E. unfold area_ge in Hy. exfalso. apply (Qlt_not_le _ _ E Hy).
  - by rewrite IH.
Qed.

Lemma sort_by_area_desc_sorted_id l : StronglySorted area_ge l -> sort_by_area_desc l = l.
Proof.
  induction l as [|x l IH] using rev_ind; [done|]. intros H.
  apply StronglySorted_snoc_inv in H as [H Hx].
  unfold sort_by_area_desc in *. rewrite fold_left_app. simpl. rewrite IH by exact H.
  by apply insert_by_area_last.
Qed.

Lemma keep_loop_all tol kept l :
  no_later_inside tol (kept ++ l) -> keep_loop tol kept l = kept ++ l.
Proof.
  revert kept. induction l as [|b l IH]; intros kept Hn; simpl; [by rewrite app_nil_r|].
  assert (Hex : existsb (fun k => _contains tol k b) kept = false).
  { apply not_true_iff_false. intros Hex. apply existsb_exists in Hex as [k [Hk Hc]].
    apply list_elem_of_In, list_elem_of_lookup in Hk as [i Hi].
    assert (Hlt : (i < length kept)%nat) by (by apply lookup_lt_Some in Hi).
    rewrite (Hn i (length kept) k b Hlt) in Hc; [discriminate| |].
    - by rewrite lookup_app_l.
    - rewrite lookup_app_r, Nat.sub_diag by lia. done. }
  rewrite Hex, IH; [by rewrite <- app_assoc|]. by rewrite <- app_assoc.
Qed.

(** The containment filter keeps a sub-list of the boxes taken in the
    order of [sorted(boxes, key=_area, reverse=True)]: every kept box is
    an input box, and the kept boxes come by non-increasing area. *)
Theorem containment_filter_sorted_sublist (boxes : list box) (tolerance : Q) :
  _remove_fully_contained_boxes boxes tolerance `sublist_of` sort_by_area_desc boxes /\
  (forall b, In b (_remove_fully_contained_boxes boxes tolerance) -> In b boxes) /\
  (forall i j a c, (i < j)%nat ->
     _remove_fully_contained_boxes boxes tolerance !! i = Some a ->
     _remove_fully_contained_boxes boxes tolerance !! j = Some c -> (_area c <= _area a)%Q).
Proof.
  unfold _remove_fully_contained_boxes.
  destruct (keep_loop_sublist tolerance [] (sort_by_area_desc boxes)) as [added [Hk Hs]].
  rewrite Hk. simpl. split; [exact Hs|split].
  - intros b Hb. apply list_elem_of_In in Hb. apply (sublist_subseteq _ _ Hs) in Hb.
    apply list_elem_of_In in Hb. eapply Permutation_in; [apply sort_by_area_desc_perm|exact Hb].
  - intros i j a c Hij Ha Hc.
    pose proof (StronglySorted_sublist _ _ _ Hs (sort_by_area_desc_sorted boxes)) as Hss.
    clear Hk Hs. revert i j Hij Ha Hc. induction Hss as [|x l Hl IH Hx]; intros i j Hij Ha Hc;
      [done|].
    destruct i as [|i]; destruct j as [|j]; try lia; simpl in Ha, Hc.
    + injection Ha as <-. rewrite Forall_forall in Hx. apply (Hx c).
      by eapply list_elem_of_lookup_2.
    + apply (IH i j); [lia|done|done].
Qed.

(** The containment filter is idempotent: filtering its output again
    with the same tolerance changes nothing. *)
Theorem containment_filter_idempotent (boxes : list box) (tolerance : Q) :
  _remove_fully_contained_boxes (_remove_fully_contained_boxes boxes tolerance) tolerance =
  _remove_fully_contained_boxes boxes tolerance.
Proof.
  set (kept := _remove_fully_contained_boxes boxes tolerance).
  assert (Hsort : StronglySorted area_ge kept).
  { unfold kept, _remove_fully_contained_boxes.
    destruct (keep_loop_sublist tolerance [] (sort_by_area_desc boxes)) as [added [Hk Hs]].
    rewrite Hk. simpl. exact (StronglySorted_sublist _ _ _ Hs (sort_by_area_desc_sorted boxes)). }
  assert (Hnl : no_later_inside tolerance kept).
  { apply keep_loop_no_later_inside. intros i j a c _ Ha. done. }
  unfold _remove_fully_contained_boxes at 1. rewrite sort_by_area_desc_sorted_id by exact Hsort.
  apply (keep_loop_all tolerance [] kept). exact Hnl.
Qed.

End LayoutExtra.

Module FontFitExtra.
Import PyFacts FontFit FontFitProofs.

(** The fit test [calculate_auto_font_size] runs its binary search with:
    the padded rectangle, its sides swapped for vertical text. *)
Definition fit_test (text : pystr) (w h : Z) (dir : pystr) (padding_ratio : Q) : Z -> bool :=
  let W0 := (inject_Z w * padding_ratio)%Q in
  let H0 := (inject_Z h * padding_ratio)%Q in
  let N := Z.of_nat (length text) in
  let '(W, H) := if bool_decide (dir = pys "vertical") then (H0, W0) else (W0, H0) in
  fits_at dir N W H.

Lemma calculate_auto_font_size_search text w h dir min_size max_size padding_ratio :
  py_strip text <> [] -> 0 < w -> 0 < h ->
  calculate_auto_font_size text w h dir min_size max_size padding_ratio =
  Z.max min_size (search (fit_test text w h dir padding_ratio)
                    (Z.to_nat (max_size - min_size + 1)) min_size max_size min_size).
Proof.
  intros Hs Hw Hh. unfold calculate_auto_font_size, fit_test.
  rewrite (bool_decide_eq_false_2 (text = [])) by (intros ->; apply Hs; reflexivity).
  rewrite (bool_decide_eq_false_2 (py_strip text = [])) by exact Hs.
  rewrite (proj2 (Z.leb_gt w 0)), (proj2 (Z.leb_gt h 0)) by lia. simpl.
  destruct (bool_decide (dir = pys "vertical")); reflexivity.
Qed.

Lemma Qdiv_Z_anti (W : Q) (a b : Z) :
  (0 <= W)%Q -> 0 < a <= b -> (W / inject_Z b <= W / inject_Z a)%Q.
Proof.
  intros HW Hab. destruct a as [|pa|pa]; try lia. destruct b as [|pb|pb]; try lia.
  destruct W as [n d]. unfold Qle in *. simpl in *.
  rewrite !Pos2Z.inj_mul. nia.
Qed.

Lemma Qdiv_Z1_anti (W : Q) (a b : Z) :
  (0 <= W)%Q -> 0 < a <= b -> (W / (inject_Z b * 1) <= W / (inject_Z a * 1))%Q.
Proof.
  intros HW Hab. destruct a as [|pa|pa]; try lia. destruct b as [|pb|pb]; try lia.
  destruct W as [n d]. unfold Qle in *. simpl in *.
  rewrite !Pos2Z.inj_mul. nia.
Qed.

Lemma ceil_div_nonneg a b : 0 <= a -> 0 < b -> 0 <= ceil_div a b.
Proof.
  intros Ha Hb. unfold ceil_div.
  assert ((- a) / b <= 0) by (apply Z.div_le_upper_bound; lia). lia.
Qed.

Lemma Qdiv_nonneg (W d : Q) : (0 <= W)%Q -> (0 <= d)%Q -> (0 <= W / d)%Q.
Proof.
  intros HW Hd. unfold Qdiv. apply Qmult_le_0_compat; [done|]. by apply Qinv_le_0_compat.
Qed.

(** The fit test at one size is antitone in the size. *)
Lemma fits_at_anti dir N W H m1 m2 :
  0 <= N -> (0 <= W)%Q -> (0 <= H)%Q -> 0 < m1 <= m2 ->
  fits_at dir N W H m2 = true -> fits_at dir N W H m1 = true.
Proof.
  intros HN HW HH Hm. unfold fits_at.
  assert (Htot : forall l1 l2 : Z, 0 <= l1 <= l2 ->
            (inject_Z (l1 * m1) * (105 # 100) <= inject_Z (l2 * m2) * (105 # 100))%Q).
  { intros l1 l2 Hl. apply Qmult_le_compat_r; [|done]. apply Qle_inject_Z. nia. }
  destruct (bool_decide (dir = pys "horizontal")).
  - assert (Hp : forall m, 0 < m -> Qltb 0 (inject_Z m * 1) = true).
    { intros m H0. apply Qltb_true. unfold Qlt; simpl. lia. }
    rewrite !Hp by lia. rewrite !Qle_bool_iff.
    set (c1 := Z.max 1 (py_int (W / (inject_Z m1 * 1)))).
    set (c2 := Z.max 1 (py_int (W / (inject_Z m2 * 1)))).
    assert (Hc : c2 <= c1).
    { apply Z.max_le_compat_l, py_int_mono; [|apply Qdiv_Z1_anti; [done|lia]].
      apply Qdiv_nonneg; [done|]. unfold Qle; simpl; lia. }
    assert (Hc2 : 0 < c2) by (unfold c2; lia).
    rewrite !(proj2 (Z.ltb_lt 0 _)) by lia. intros Hf.
    eapply Qle_trans; [|exact Hf]. apply Htot. split.
    + apply ceil_div_nonneg; lia.
    + apply ceil_div_anti; lia.
  - rewrite (proj2 (Z.ltb_lt 0 m1)), (proj2 (Z.ltb_lt 0 m2)) by lia. rewrite !Qle_bool_iff.
    set (c1 := Z.max 1 (py_int (H / inject_Z m1))).
    set (c2 := Z.max 1 (py_int (H / inject_Z m2))).
    assert (Hc : c2 <= c1).
    { apply Z.max_le_compat_l, py_int_mono; [|apply Qdiv_Z_anti; [done|lia]].
      apply Qdiv_nonneg; [done|]. unfold Qle; simpl; lia. }
    assert (Hc2 : 0 < c2) by (unfold c2; lia).
    rewrite !(proj2 (Z.ltb_lt 0 _)) by lia. intros Hf.
    eapply Qle_trans; [|exact Hf]. apply Htot. split.
    + apply ceil_div_nonneg; lia.
    + apply ceil_div_anti; lia.
Qed.

(** The binary search finds the largest size that passes an antitone fit
    test, or [lo0] when none does. *)
Lemma search_largest (fits : Z -> bool) (lo0 hi0 : Z) fuel low high best :
  (forall a b, lo0 <= a <= b -> fits b = true -> fits a = true) ->
  1 <= lo0 -> lo0 <= hi0 -> lo0 <= low -> low <= high + 1 -> high <= hi0 ->
  high - low + 1 <= Z.of_nat fuel ->
  ((best = lo0 /\ low = lo0) \/ (fits best = true /\ best = low - 1 /\ lo0 <= best)) ->
  (forall s, high < s <= hi0 -> fits s = false) ->
  lo0 <= search fits fuel low high best <= hi0 /\
  (search fits fuel low high best = lo0 \/ fits (search fits fuel low high best) = true) /\
  (forall s, search fits fuel low high best < s <= hi0 -> fits s = false).
Proof.
  intros Hanti H1 Hlh. revert low high best.
  induction fuel as [|fuel IH]; intros low high best Hl Hlh' Hh Hfuel Hinv Hno.
  - simpl. destruct Hinv as [[-> ->]|[Hb [-> Hb0]]].
    + split; [lia|]. split; [by left|]. intros s Hs. apply Hno. lia.
    + split; [lia|]. split; [by right|]. intros s Hs. apply Hno. lia.
  - simpl. destruct (Z.leb_spec low high) as [Hle|Hgt].
    + set (mid := (low + high) / 2).
      assert (Hmid : low <= mid <= high).
      { split; [apply Z.div_le_lower_bound|apply Z.div_le_upper_bound]; lia. }
      rewrite (proj2 (Z.eqb_neq mid 0)) by lia.
      destruct (fits mid) eqn:Hf.
      * apply IH; try lia; [right; split; [done|lia]|exact Hno].
      * apply IH; try lia; [done|]. intros s Hs.
        destruct (Z.le_gt_cases s high) as [Hsh|Hsh]; [|apply Hno; lia].
        destruct (fits s) eqn:Hfs; [|done].
        rewrite (Hanti mid s ltac:(lia) Hfs) in Hf. discriminate.
    + destruct Hinv as [[-> ->]|[Hb [-> Hb0]]].
      * split; [lia|]. split; [by left|]. intros s Hs. apply Hno. lia.
      * split; [lia|]. split; [by right|]. intros s Hs. apply Hno. lia.
Qed.

(** For a non-blank text, a rectangle of positive size, a non-negative
    padding ratio and [1 <= min_size <= max_size],
    [calculate_auto_font_size] returns the largest size in
    [[min_size, max_size]] whose estimated layout fits, or [min_size] when
    none fits: the result lies in the range, fits unless it is
    [min_size], and every larger size up to [max_size] does not fit. *)
Theorem font_size_is_largest_fitting (text dir : pystr) (w h min_size max_size : Z)
    (padding_ratio : Q) :
  py_strip text <> [] -> 0 < w -> 0 < h -> (0 <= padding_ratio)%Q -> 1 <= min_size <= max_size ->
  min_size <= calculate_auto_font_size text w h dir min_size max_size padding_ratio <= max_size /\
  (calculate_auto_font_size text w h dir min_size max_size padding_ratio = min_size \/
   fit_test text w h dir padding_ratio
     (calculate_auto_font_size text w h dir min_size max_size padding_ratio) = true) /\
  (forall s, calculate_auto_font_size text w h dir min_size max_size padding_ratio < s <= max_size ->
     fit_test text w h dir padding_ratio s = false).
Proof.
  intros Hs Hw Hh Hp Hmm. rewrite calculate_auto_font_size_search by assumption.
  assert (Hanti : forall a b, min_size <= a <= b -> fit_test text w h dir padding_ratio b = true ->
                    fit_test text w h dir padding_ratio a = true).
  { intros a b Hab. unfold fit_test.
    assert (Hsc : forall z, 0 < z -> (0 <= inject_Z z * padding_ratio)%Q).
    { intros z Hz. apply Qmult_le_0_compat; [|done]. unfold Qle; simpl; lia. }
    destruct (bool_decide (dir = pys "vertical")); apply fits_at_anti; auto; lia. }
  destruct (search_largest (fit_test text w h dir padding_ratio) min_size max_size
              (Z.to_nat (max_size - min_size + 1)) min_size max_size min_size Hanti
              ltac:(lia) ltac:(lia) ltac:(lia) ltac:(lia) ltac:(lia) ltac:(lia)
              (or_introl (conj eq_refl eq_refl)) ltac:(intros s' Hs'; lia))
    as [Hr [Hfit Hmax]].
  rewrite Z.max_r by lia. split; [exact Hr|]. split; [exact Hfit|exact Hmax].
Qed.

Lemma font_size_is_largest_fitting_witness :
  font_size_default (pys "hello world") 200 40 (pys "horizontal") = 19 /\
  fit_test (pys "hello world") 200 40 (pys "horizontal") 1 19 = true /\
  fit_test (pys "hello world") 200 40 (pys "horizontal") 1 20 = false.
Proof.
  destruct (font_size_is_largest_fitting (pys "hello world") (pys "horizontal") 200 40 12 60 1
              ltac:(vm_compute; discriminate) ltac:(lia) ltac:(lia) ltac:(discriminate) ltac:(lia))
    as [_ [Hfit Hmax]].
  assert (Hr : font_size_default (pys "hello world") 200 40 (pys "horizontal") = 19)
    by (vm_compute; reflexivity).
  unfold font_size_default in Hr. rewrite Hr in Hfit, Hmax.
  split; [exact Hr|]. split.
  - destruct Hfit as [Hfit|Hfit]; [discriminate|exact Hfit].
  - apply Hmax. lia.
Defined.

End FontFitExtra.

Module ComposerExtra.
Import PyFacts Composer.

Lemma ins_by_perm {A} (lt : A -> A -> bool) x l : Permutation (ins_by lt x l) (x :: l).
Proof.
  induction l as [|y l IH]; simpl; [done|].
  destruct (lt x y); [done|]. etrans; [apply perm_skip, IH|]. apply perm_swap.
Qed.

Lemma sort_by_perm {A} (lt : A -> A -> bool) l : Permutation (sort_by lt l) l.
Proof.
  induction l as [|x l IH] using rev_ind; [done|].
  unfold sort_by in *. rewrite fold_left_app. simpl.
  etrans; [apply ins_by_perm|]. rewrite IH. apply Permutation_cons_append.
Qed.

Definition x0_le (a b : item) : Prop := x0 a <= x0 b.

Lemma ins_by_x0_sorted x l :
  Sorted x0_le l -> Sorted x0_le (ins_by (fun a b => x0 a <? x0 b) x l).
Proof.
  induction l as [|y l IH]; simpl; intros Hl; [repeat constructor|].
  destruct (Z.ltb_spec (x0 x) (x0 y)) as [Hxy|Hxy].
  - constructor; [exact Hl|]. constructor. unfold x0_le. lia.
  - apply Sorted_inv in Hl as [Hl Hy]. constructor; [by apply IH|].
    destruct l as [|z l]; simpl; [constructor; unfold x0_le; lia|].
    destruct (x0 x <? x0 z); constructor; [unfold x0_le; lia|].
    by apply HdRel_inv in Hy.
Qed.

Lemma sort_by_x0_sorted l : Sorted x0_le (sort_by (fun a b => x0 a <? x0 b) l).
Proof.
  induction l as [|x l IH] using rev_ind; [constructor|].
  unfold sort_by in *. rewrite fold_left_app. simpl. by apply ins_by_x0_sorted.
Qed.

Lemma place_perm th d lines : Permutation (concat (place th d lines)) (d :: concat lines).
Proof.
  induction lines as [|ln rest IH]; simpl; [done|].
  destruct (Qle_bool _ th); rewrite !concat_cons.
  - rewrite <- app_assoc. simpl. symmetry. apply Permutation_middle.
  - rewrite IH. symmetry. apply Permutation_middle.
Qed.

Lemma fold_place_perm th l acc :
  Permutation (concat (fold_left (fun lines d => place th d lines) l acc)) (concat acc ++ l).
Proof.
  revert acc. induction l as [|d l IH]; intros acc; simpl; [by rewrite app_nil_r|].
  rewrite IH, place_perm. simpl. apply Permutation_middle.
Qed.

Lemma place_nonempty th d lines :
  Forall (fun ln => ln <> []) lines -> Forall (fun ln => ln <> []) (place th d lines).
Proof.
  induction lines as [|ln rest IH]; simpl; intros H; [repeat constructor; discriminate|].
  pose proof (Forall_inv H) as Hln. apply Forall_inv_tail in H.
  destruct (Qle_bool _ th); constructor; auto.
  destruct ln; discriminate.
Qed.

Lemma fold_place_nonempty th l acc :
  Forall (fun ln => ln <> []) acc ->
  Forall (fun ln => ln <> []) (fold_left (fun lines d => place th d lines) l acc).
Proof.
  revert acc. induction l as [|d l IH]; intros acc H; simpl; [done|].
  by apply IH, place_nonempty.
Qed.

Lemma fold_min_le (l : list Z) (a : Z) :
  fold_left Z.min l a <= a /\ forall z, In z l -> fold_left Z.min l a <= z.
Proof.
  revert a. induction l as [|b l IH]; intros a; simpl; [split; [lia|tauto]|].
  destruct (IH (Z.min a b)) as [H1 H2]. split; [lia|].
  intros z [<-|Hz]; [lia|auto].
Qed.

Lemma fold_max_ge (l : list Z) (a : Z) :
  a <= fold_left Z.max l a /\ forall z, In z l -> z <= fold_left Z.max l a.
Proof.
  revert a. induction l as [|b l IH]; intros a; simpl; [split; [lia|tauto]|].
  destruct (IH (Z.max a b)) as [H1 H2]. split; [lia|].
  intros z [<-|Hz]; [lia|auto].
Qed.

Lemma list_min_le (l : list Z) (d z : Z) : In z l -> list_min l d <= z.
Proof. intros Hz. unfold list_min. by apply fold_min_le. Qed.

Lemma list_max_ge (l : list Z) (d z : Z) : In z l -> z <= list_max l d.
Proof. intros Hz. unfold list_max. by apply fold_max_ge. Qed.

Lemma sorted_tag (bb : bbox) (l : list item) :
  Sorted x0_le l -> Sorted (fun a b => x0 (it a) <= x0 (it b)) (map (fun d => mkLItem d bb) l).
Proof.
  induction 1 as [|a l Hl IH Hd]; simpl; [constructor|]. constructor; [exact IH|].
  destruct Hd; simpl; constructor. exact H.
Qed.

Lemma group_lines_shape_aux (items : list item) :
  exists lines, Permutation (concat lines) items /\ Forall (fun ln => ln <> []) lines /\
    _group_items_into_lines items = map finish_line lines.
Proof.
  unfold _group_items_into_lines. destruct items as [|i0 rest] eqn:E.
  - exists []. split; [done|]. split; [constructor|done].
  - rewrite <- E. eexists. split; [|split; [|reflexivity]].
    + rewrite fold_place_perm. simpl. apply sort_by_perm.
    + apply fold_place_nonempty. constructor.
Qed.

(** [_group_items_into_lines] partitions the items: its lines, read one
    after the other, hold each input item exactly as often as the input
    does. *)
Theorem group_lines_partition (items : list item) :
  Permutation (concat (map (map it) (_group_items_into_lines items))) items.
Proof.
  destruct (group_lines_shape_aux items) as [lines [Hp [_ ->]]].
  rewrite <- Hp. rewrite map_map. clear Hp. induction lines as [|ln rest IH]; [done|].
  rewrite map_cons, !concat_cons. apply Permutation_app; [|exact IH].
  unfold finish_line. rewrite map_map. simpl. rewrite map_id. apply sort_by_perm.
Qed.

(** Every line of [_group_items_into_lines] is non-empty and sorted by
    [x0], and all its items carry the same [_line_bbox], which contains
    the bbox of each of them. *)
Theorem group_lines_shape (items : list item) (ln : list litem) :
  In ln (_group_items_into_lines items) ->
  ln <> [] /\ Sorted (fun a b => x0 (it a) <= x0 (it b)) ln /\
  exists bb, forall d, In d ln ->
    line_bbox d = bb /\ lx0 bb <= x0 (it d) /\ ly0 bb <= y0 (it d) /\
    x1 (it d) <= lx1 bb /\ y1 (it d) <= ly1 bb.
Proof.
  destruct (group_lines_shape_aux items) as [lines [_ [Hne ->]]].
  intros Hln. apply in_map_iff in Hln as [raw [<- Hraw]].
  rewrite Forall_forall in Hne. pose proof (Hne raw (proj2 (list_elem_of_In _ _) Hraw)) as Hraw_ne.
  unfold finish_line.
  set (ln' := sort_by (fun a b => x0 a <? x0 b) raw).
  split; [|split].
  - destruct ln' as [|d l] eqn:E; [|discriminate].
    pose proof (Permutation_length (sort_by_perm (fun a b => x0 a <? x0 b) raw)) as Hl.
    fold ln' in Hl. rewrite E in Hl. destruct raw; [done|discriminate].
  - pose proof (sort_by_x0_sorted raw) as Hs. fold ln' in Hs. clear -Hs.
    by apply sorted_tag.
  - eexists. intros d Hd. apply in_map_iff in Hd as [x [<- Hx]]. simpl.
    split; [reflexivity|]. split; [|split; [|split]];
      first [apply list_min_le | apply list_max_ge]; apply in_map; exact Hx.
Qed.

Lemma group_lines_shape_witness :
  In [mkLItem (mkItem (pys "a") 0 0 30 10) (mkBBox 0 0 70 12);
      mkLItem (mkItem (pys "b") 40 2 70 12) (mkBBox 0 0 70 12)]
     (_group_items_into_lines [mkItem (pys "b") 40 2 70 12; mkItem (pys "a") 0 0 30 10]) /\
  Sorted (fun a b => x0 (it a) <= x0 (it b))
    [mkLItem (mkItem (pys "a") 0 0 30 10) (mkBBox 0 0 70 12);
     mkLItem (mkItem (pys "b") 40 2 70 12) (mkBBox 0 0 70 12)].
Proof.
  assert (H : In [mkLItem (mkItem (pys "a") 0 0 30 10) (mkBBox 0 0 70 12);
                  mkLItem (mkItem (pys "b") 40 2 70 12) (mkBBox 0 0 70 12)]
     (_group_items_into_lines [mkItem (pys "b") 40 2 70 12; mkItem (pys "a") 0 0 30 10]))
    by (vm_compute; left; reflexivity).
  split; [exact H|]. apply (group_lines_shape _ _ H).
Defined.

End ComposerExtra.

Module TextLayoutExtra.
Import TextLayout.
Local Open Scope Z_scope.

(** Sum of the character widths of a line. *)
Definition sum_w (cs : list (Z * Z)) : Z := fold_right (fun p acc => snd p + acc) 0 cs.

(** The character of a [draw.text] call [(x, y, ch)]. *)
Definition call_char (c : Z * Z * Z) : Z := let '(_, _, ch) := c in ch.

Lemma sum_w_app cs cs' : sum_w (cs ++ cs') = sum_w cs + sum_w cs'.
Proof. induction cs as [|p cs IH]; simpl; lia. Qed.

Lemma sum_w_nonneg cs : Forall (fun p => 0 <= snd p) cs -> 0 <= sum_w cs.
Proof.
  induction cs as [|p cs IH]; simpl; intros H; [lia|].
  pose proof (Forall_inv H). pose proof (IH (Forall_inv_tail H)). simpl in *. lia.
Qed.

Lemma filter_filter_and (p q : Z -> bool) (l : list Z) :
  List.filter p (List.filter q l) = List.filter (fun c => q c && p c) l.
Proof.
  induction l as [|a l IH]; simpl; [done|].
  destruct (q a); simpl; [destruct (p a); simpl|]; by rewrite ?IH.
Qed.

Section Props.

Variable char_width : Z -> Z.

Definition line_ok (mw : Z) (lm : line_meta) : Prop :=
  width lm = sum_w (chars lm) /\ (width lm <= mw \/ length (chars lm) = 1%nat) /\
  Forall (fun p => snd p = char_width (fst p)) (chars lm).

Lemma loop_chars mw t lines cur cw :
  concat (map (fun lm => map fst (chars lm)) (layout_loop char_width mw t lines cur cw)) =
  concat (map (fun lm => map fst (chars lm)) lines) ++ map fst cur ++
  List.filter (fun c => negb (c =? 10)) t.
Proof.
  revert lines cur cw. induction t as [|ch t IH]; intros lines cur cw; simpl.
  - destruct cur as [|p cur]; simpl; [by rewrite !app_nil_r|].
    rewrite map_app, concat_app. simpl. by rewrite !app_nil_r.
  - destruct (Z.eqb_spec ch 10) as [->|Hne]; simpl.
    + rewrite IH, map_app, concat_app. simpl. by rewrite !app_nil_r, <- app_assoc.
    + destruct (cw + char_width ch <=? mw).
      * rewrite IH, map_app, <- app_assoc. done.
      * rewrite IH, map_app, concat_app. simpl. by rewrite !app_nil_r, <- app_assoc.
Qed.

Lemma loop_ok mw t lines cur cw :
  0 <= mw -> Forall (line_ok mw) lines -> line_ok mw (mkLine cur cw) ->
  Forall (line_ok mw) (layout_loop char_width mw t lines cur cw).
Proof.
  intros Hmw. revert lines cur cw. induction t as [|ch t IH]; intros lines cur cw Hl Hc; simpl.
  - destruct cur; [done|]. apply Forall_app; split; [done|]. by constructor.
  - destruct (ch =? 10).
    + apply IH; [apply Forall_app; split; [done|by constructor]|].
      unfold line_ok; simpl. split; [done|]. split; [left; lia|constructor].
    + destruct Hc as [Hs [Hw Hf]]; simpl in Hs, Hw, Hf.
      destruct (Z.leb_spec (cw + char_width ch) mw) as [Hle|Hgt].
      * apply IH; [done|]. unfold line_ok; simpl. rewrite sum_w_app. simpl.
        split; [lia|]. split; [left; lia|]. apply Forall_app; split; [done|].
        by constructor.
      * apply IH; [apply Forall_app; split; [done|]; constructor; [|constructor];
          unfold line_ok; simpl; tauto|].
        unfold line_ok; simpl. split; [lia|]. split; [right; done|]. by constructor.
Qed.

Lemma lines_meta_ok text mw :
  0 <= mw -> Forall (line_ok mw) (lines_meta char_width text mw).
Proof.
  intros Hmw. apply loop_ok; [done|constructor|].
  unfold line_ok; simpl. split; [done|]. split; [left; lia|constructor].
Qed.

Lemma loop_prefix mw t lines cur cw :
  exists tl, layout_loop char_width mw t lines cur cw = lines ++ tl.
Proof.
  revert lines cur cw. induction t as [|ch t IH]; intros lines cur cw; simpl.
  - destruct cur; [exists []; by rewrite app_nil_r|]. by eexists.
  - destruct (ch =? 10); [|destruct (_ <=? mw)];
      match goal with |- context [layout_loop _ _ _ ?l ?c ?w] =>
        destruct (IH l c w) as [tl ->] end;
      [eexists; by rewrite <- app_assoc|by eexists|eexists; by rewrite <- app_assoc].
Qed.

Lemma line_calls_chars cx cy cs : map call_char (line_calls cx cy cs) = map fst cs.
Proof.
  revert cx. induction cs as [|[c w] cs IH]; intros cx; simpl; [done|]. by rewrite IH.
Qed.

Lemma lines_calls_chars x cy lh lms :
  map call_char (lines_calls x cy lh lms) = concat (map (fun lm => map fst (chars lm)) lms).
Proof.
  revert cy. induction lms as [|lm lms IH]; intros cy; simpl; [done|].
  by rewrite map_app, line_calls_chars, IH.
Qed.

Lemma line_calls_in cx0 cy cs cx cy' ch :
  Forall (fun p => 0 <= snd p) cs -> In (cx, cy', ch) (line_calls cx0 cy cs) ->
  cy' = cy /\ exists w, In (ch, w) cs /\ cx0 <= cx /\ cx + w <= cx0 + sum_w cs.
Proof.
  revert cx0. induction cs as [|[c w] cs IH]; intros cx0 Hf Hin; simpl in *; [done|].
  pose proof (Forall_inv Hf) as Hw. simpl in Hw. apply Forall_inv_tail in Hf.
  pose proof (sum_w_nonneg cs Hf) as Hs.
  destruct Hin as [Heq|Hin].
  - injection Heq as <- <- <-. split; [done|]. exists w. split; [by left|]. lia.
  - destruct (IH (cx0 + w) Hf Hin) as [-> [w' [Hin' [H1 H2]]]].
    split; [done|]. exists w'. split; [by right|]. lia.
Qed.

Lemma lines_calls_in x cy lh lms cx cy' ch :
  In (cx, cy', ch) (lines_calls x cy lh lms) ->
  exists k lm, nth_error lms k = Some lm /\ cy' = cy + Z.of_nat k * lh /\
    In (cx, cy', ch) (line_calls x cy' (chars lm)).
Proof.
  revert cy. induction lms as [|lm lms IH]; intros cy Hin; simpl in *; [done|].
  apply in_app_or in Hin as [Hin|Hin].
  - assert (cy' = cy) as ->.
    { clear -Hin. revert x Hin. induction (chars lm) as [|[c w] cs IH]; intros x Hin;
        simpl in Hin; [done|]. destruct Hin as [Heq|Hin]; [congruence|eauto]. }
    exists 0%nat, lm. split; [done|]. split; [lia|done].
  - destruct (IH _ Hin) as [k [lm' [Hk [-> Hin']]]].
    exists (S k), lm'. split; [done|]. split; [lia|done].
Qed.

End Props.

(** The characters laid out by [draw_multiline_text_horizontal], read
    line after line, are exactly those of the text without its [\r] and
    [\n], in their order: nothing is dropped, added or reordered. *)
Theorem lines_meta_chars (char_width : Z -> Z) (text : pystr) (max_width : Z) :
  concat (map (fun lm => map fst (chars lm)) (lines_meta char_width text max_width)) =
  List.filter (fun c => negb (c =? 13) && negb (c =? 10)) text.
Proof.
  unfold lines_meta. rewrite loop_chars. simpl. by rewrite filter_filter_and.
Qed.

(** With a non-negative [max_width], the width recorded for each laid-out
    line is the sum of its character widths, and it is at most
    [max_width] unless the line holds a single character. *)
Theorem lines_meta_widths (char_width : Z -> Z) (text : pystr) (max_width : Z) (lm : line_meta) :
  0 <= max_width -> In lm (lines_meta char_width text max_width) ->
  width lm = sum_w (chars lm) /\ (width lm <= max_width \/ length (chars lm) = 1%nat).
Proof.
  intros Hmw Hin. pose proof (lines_meta_ok char_width text max_width Hmw) as H.
  rewrite Forall_forall in H. destruct (H lm (proj2 (list_elem_of_In _ _) Hin)) as [H1 [H2 _]].
  done.
Qed.

Lemma lines_meta_widths_witness :
  0 <= 10 /\ In (mkLine [(104, 4); (105, 4)] 8) (lines_meta (fun _ => 4) (pys "hi hi") 10) /\
  width (mkLine [(104, 4); (105, 4)] 8) = sum_w (chars (mkLine [(104, 4); (105, 4)] 8)) /\
  (width (mkLine [(104, 4); (105, 4)] 8) <= 10 \/ length (chars (mkLine [(104, 4); (105, 4)] 8)) = 1%nat).
Proof.
  assert (Hin : In (mkLine [(104, 4); (105, 4)] 8) (lines_meta (fun _ => 4) (pys "hi hi") 10))
    by (vm_compute; left; reflexivity).
  split; [lia|]. split; [exact Hin|].
  apply (lines_meta_widths (fun _ => 4) (pys "hi hi") 10); [lia|exact Hin].
Defined.

(** A first character wider than [max_width] does not start the first
    line: an empty line of width 0 is recorded before it. *)
Theorem lines_meta_overwide_first (char_width : Z -> Z) (c : Z) (rest : pystr) (max_width : Z) :
  c <> 13 -> c <> 10 -> max_width < char_width c ->
  exists tl, lines_meta char_width (c :: rest) max_width = mkLine [] 0 :: tl.
Proof.
  intros H13 H10 Hw. unfold lines_meta. simpl.
  rewrite (proj2 (Z.eqb_neq c 13) H13). simpl.
  rewrite (proj2 (Z.eqb_neq c 10) H10).
  match goal with |- context [?a <=? ?b] => destruct (Z.leb_spec a b); [lia|] end.
  match goal with |- context [layout_loop _ _ ?t ?l ?cu ?w] =>
    destruct (loop_prefix char_width max_width t l cu w) as [tl ->] end.
  by exists tl.
Qed.

(** When it draws (no rotation), [draw_multiline_text_horizontal] draws
    either nothing or exactly the characters of the text without [\r] and
    [\n], in their order. *)
Theorem draw_calls_chars (char_width : Z -> Z) (text : pystr) (font_size x y max_width : Z) :
  draw_calls char_width text font_size x y max_width = [] \/
  map call_char (draw_calls char_width text font_size x y max_width) =
  List.filter (fun c => negb (c =? 13) && negb (c =? 10)) text.
Proof.
  unfold draw_calls. destruct text as [|z t]; [by left|].
  destruct (lines_meta char_width (z :: t) max_width) eqn:E; [by left|].
  destruct (_ || _); [by left|]. right.
  rewrite lines_calls_chars, <- E. apply lines_meta_chars.
Qed.

(** With non-negative character widths and [max_width], every character
    is drawn at or right of [x]; it ends at or left of [x + max_width]
    unless it is drawn at [x] itself (a single over-wide character); and
    it is drawn at [y + k * (font_size + 5)] for a line index [k]. *)
Theorem draw_calls_positions (char_width : Z -> Z) (text : pystr) (font_size x y max_width : Z)
    (cx cy ch : Z) :
  (forall c, 0 <= char_width c) -> 0 <= max_width ->
  In (cx, cy, ch) (draw_calls char_width text font_size x y max_width) ->
  x <= cx /\ (cx + char_width ch <= x + max_width \/ cx = x) /\
  exists k, (k < length (lines_meta char_width text max_width))%nat /\
    cy = y + Z.of_nat k * (font_size + 5).
Proof.
  intros Hcw Hmw Hin. unfold draw_calls in Hin. destruct text as [|z t]; [done|].
  destruct (lines_meta char_width (z :: t) max_width) as [|l0 ls] eqn:E; [done|].
  destruct (_ || _); [done|]. rewrite <- E in Hin.
  destruct (lines_calls_in _ _ _ _ _ _ _ Hin) as [k [lm [Hk [Hcy Hin']]]].
  pose proof (lines_meta_ok char_width (z :: t) max_width Hmw) as Hok.
  rewrite Forall_forall in Hok.
  assert (Hlm : In lm (lines_meta char_width (z :: t) max_width)) by (eapply nth_error_In; eauto).
  destruct (Hok lm (proj2 (list_elem_of_In _ _) Hlm)) as [Hs [Hwd Hf]].
  assert (Hnn : Forall (fun p => 0 <= snd p) (chars lm)).
  { apply Forall_forall. intros p Hp. rewrite Forall_forall in Hf. rewrite (Hf p Hp). apply Hcw. }
  destruct (line_calls_in _ _ _ _ _ _ Hnn Hin') as [_ [w [Hinw [H1 H2]]]].
  rewrite Forall_forall in Hf. pose proof (Hf _ (proj2 (list_elem_of_In _ _) Hinw)) as Hww.
  simpl in Hww. subst w.
  split; [done|]. split.
  - destruct Hwd as [Hwd|Hlen]; [left; lia|right].
    destruct (chars lm) as [|[c0 w0] [|]]; simpl in Hin', Hlen; try discriminate.
    destruct Hin' as [Heq|[]]. congruence.
  - exists k. split; [apply nth_error_Some; congruence|done].
Qed.

Lemma draw_calls_positions_witness :
  (forall c : Z, 0 <= (fun _ : Z => 4) c) /\ 0 <= 10 /\
  In (4, 17, 104) (draw_calls (fun _ => 4) (pys "hi hi") 10 0 2 10) /\
  0 <= 4 /\ (4 + 4 <= 0 + 10 \/ 4 = 0) /\
  exists k, (k < length (lines_meta (fun _ => 4%Z) (pys "hi hi") 10))%nat /\ 17 = 2 + Z.of_nat k * (10 + 5).
Proof.
  assert (Hin : In (4, 17, 104) (draw_calls (fun _ => 4) (pys "hi hi") 10 0 2 10))
    by (vm_compute; right; right; right; left; reflexivity).
  split; [intros; lia|]. split; [lia|]. split; [exact Hin|].
  apply (draw_calls_positions (fun _ => 4) (pys "hi hi") 10 0 2 10 4 17 104); [intros; lia|lia|exact Hin].
Defined.

Lemma lines_meta_overwide_first_witness :
  65 <> 13 /\ 65 <> 10 /\ 5 < (fun _ : Z => 10) 65 /\
  exists tl, lines_meta (fun _ => 10) [65] 5 = mkLine [] 0 :: tl.
Proof.
  split; [lia|]. split; [lia|]. split; [simpl; lia|].
  apply (lines_meta_overwide_first (fun _ => 10) 65 [] 5); simpl; lia.
Defined.

End TextLayoutExtra.

Module BBoxParseExtra.
Import BBoxParse.
Local Open Scope Z_scope.

Lemma fold_min_in (l : list Z) (a : Z) : fold_left Z.min l a = a \/ In (fold_left Z.min l a) l.
Proof.
  revert a. induction l as [|b l IH]; intros a; simpl; [by left|].
  destruct (IH (Z.min a b)) as [->|H]; [|by right; right].
  destruct (Z.min_spec a b) as [[_ ->]|[_ ->]]; [by left|by right; left].
Qed.

Lemma fold_max_in (l : list Z) (a : Z) : fold_left Z.max l a = a \/ In (fold_left Z.max l a) l.
Proof.
  revert a. induction l as [|b l IH]; intros a; simpl; [by left|].
  destruct (IH (Z.max a b)) as [->|H]; [|by right; right].
  destruct (Z.max_spec a b) as [[_ ->]|[_ ->]]; [by right; left|by left].
Qed.

Lemma list_min_in (l : list Z) (d : Z) : l <> [] -> In (Composer.list_min l d) l.
Proof.
  destruct l as [|x l]; [done|]. intros _. unfold Composer.list_min. simpl.
  rewrite Z.min_id. destruct (fold_min_in l x) as [->|H]; [by left|by right].
Qed.

Lemma list_max_in (l : list Z) (d : Z) : l <> [] -> In (Composer.list_max l d) l.
Proof.
  destruct l as [|x l]; [done|]. intros _. unfold Composer.list_max. simpl.
  rewrite Z.max_id. destruct (fold_max_in l x) as [->|H]; [by left|by right].
Qed.

Lemma mapM_length {A B} (f : A -> option B) (l : list A) (k : list B) :
  mapM f l = Some k -> length k = length l.
Proof. intros H. apply mapM_Some in H. symmetry. by eapply Forall2_length. Qed.

Section Props.

Variable int_of_str : pystr -> option Z.

Lemma number_not_point (v : pyval) :
  is_number v = true -> is_point v = false /\ exists z, py_int_of int_of_str v = Some z.
Proof. destruct v; simpl; try discriminate; intros _; split; eauto. Qed.

(** For a sequence whose first four elements are points with integer
    coordinates, [_bbox_from_any] returns the smallest box holding them:
    its corners are the minima and maxima of [int(p[0])] and [int(p[1])]
    over those points, each attained by one of them. *)
Theorem bbox_from_polygon (b : pyval) (l : list pyval) (xs ys : list Z) :
  as_seq b = Some l -> (4 <= length l)%nat -> forallb is_point (take 4 l) = true ->
  mapM (px int_of_str) (take 4 l) = Some xs -> mapM (py int_of_str) (take 4 l) = Some ys ->
  exists x0 y0 x1 y1, _bbox_from_any int_of_str b = Some (x0, y0, x1, y1) /\
    In x0 xs /\ In y0 ys /\ In x1 xs /\ In y1 ys /\
    (forall x, In x xs -> x0 <= x <= x1) /\ (forall y, In y ys -> y0 <= y <= y1).
Proof.
  intros Hs Hl Hp Hx Hy. unfold _bbox_from_any. rewrite Hs.
  rewrite (proj2 (Nat.leb_le 4 (length l)) Hl), Hp, Hx, Hy. simpl.
  assert (Hlx : xs <> []).
  { intros ->. apply mapM_length in Hx. rewrite length_take in Hx. cbn [length] in Hx. lia. }
  assert (Hly : ys <> []).
  { intros ->. apply mapM_length in Hy. rewrite length_take in Hy. cbn [length] in Hy. lia. }
  do 4 eexists. split; [reflexivity|].
  split; [by apply list_min_in|]. split; [by apply list_min_in|].
  split; [by apply list_max_in|]. split; [by apply list_max_in|].
  split; intros z Hz; split;
    first [apply ComposerExtra.list_min_le | apply ComposerExtra.list_max_ge]; exact Hz.
Qed.

(** For a sequence whose first four elements are numbers, [_bbox_from_any]
    returns [int] of those four in their given order, without reordering
    them into a box. *)
Theorem bbox_from_flat (b : pyval) (v0 v1 v2 v3 : pyval) (rest : list pyval) :
  as_seq b = Some (v0 :: v1 :: v2 :: v3 :: rest) ->
  is_number v0 = true -> is_number v1 = true -> is_number v2 = true -> is_number v3 = true ->
  exists a c d e, py_int_of int_of_str v0 = Some a /\ py_int_of int_of_str v1 = Some c /\
    py_int_of int_of_str v2 = Some d /\ py_int_of int_of_str v3 = Some e /\
    _bbox_from_any int_of_str b = Some (a, c, d, e).
Proof.
  intros Hs H0 H1 H2 H3.
  destruct (number_not_point v0 H0) as [P0 [a A]].
  destruct (number_not_point v1 H1) as [P1 [c C]].
  destruct (number_not_point v2 H2) as [P2 [d D]].
  destruct (number_not_point v3 H3) as [P3 [e E]].
  exists a, c, d, e. do 4 (split; [done|]).
  unfold _bbox_from_any. rewrite Hs. simpl.
  rewrite P0, H0, H1, H2, H3. simpl. by rewrite A, C, D, E.
Qed.

(** [_bbox_from_any] returns [None] for a value that is not a list or
    tuple, and for a list or tuple of fewer than four elements. *)
Theorem bbox_from_short (b : pyval) :
  (forall l, as_seq b = Some l -> (length l < 4)%nat) -> _bbox_from_any int_of_str b = None.
Proof.
  intros H. unfold _bbox_from_any. destruct (as_seq b) as [l|] eqn:E; [|done].
  specialize (H l eq_refl). by rewrite (proj2 (Nat.leb_gt 4 (length l)) ltac:(lia)).
Qed.

End Props.

Lemma bbox_from_polygon_witness :
  _bbox_from_any (fun _ => None)
    (PList [PList [PInt 1; PInt 5]; PTuple [PInt 9; PInt 2; PInt 0];
            PList [PFloat (37 # 10); PInt 8]; PList [PInt 0; PBool true]]) = Some (0, 1, 9, 8).
Proof.
  destruct (bbox_from_polygon (fun _ => None)
              (PList [PList [PInt 1; PInt 5]; PTuple [PInt 9; PInt 2; PInt 0];
                      PList [PFloat (37 # 10); PInt 8]; PList [PInt 0; PBool true]])
              [PList [PInt 1; PInt 5]; PTuple [PInt 9; PInt 2; PInt 0];
               PList [PFloat (37 # 10); PInt 8]; PList [PInt 0; PBool true]] [1; 9; 3; 0] [5; 2; 8; 1]
              eq_refl ltac:(vm_compute; lia) eq_refl eq_refl eq_refl)
    as [x0 [y0 [x1 [y1 [Hb _]]]]].
  rewrite Hb. vm_compute in Hb. symmetry; exact Hb.
Defined.

Lemma bbox_from_flat_witness :
  _bbox_from_any (fun _ => None) (PTuple [PInt 10; PInt 10; PInt 5; PFloat (55 # 10)]) =
  Some (10, 10, 5, 5).
Proof.
  destruct (bbox_from_flat (fun _ => None) (PTuple [PInt 10; PInt 10; PInt 5; PFloat (55 # 10)])
              (PInt 10) (PInt 10) (PInt 5) (PFloat (55 # 10)) [] eq_refl eq_refl eq_refl eq_refl eq_refl)
    as [a [c [d [e [Ha [Hc [Hd [He Hb]]]]]]]].
  rewrite Hb. vm_compute in Ha, Hc, Hd, He. congruence.
Defined.

Lemma bbox_from_short_witness :
  _bbox_from_any (fun _ => None) (PList [PInt 1; PInt 2; PInt 3]) = None.
Proof.
  apply bbox_from_short. intros l Hl. vm_compute in Hl. injection Hl as <-. simpl. lia.
Defined.

End BBoxParseExtra.

Module RemoverExtra.
Import PyFacts Pipeline PipelineProofs.
Local Open Scope Z_scope.

Lemma existsb_ext_in {A} (f g : A -> bool) (l : list A) :
  (forall a, In a l -> f a = g a) -> existsb f l = existsb g l.
Proof.
  induction l as [|a l IH]; simpl; intros H; [done|].
  rewrite (H a (or_introl eq_refl)), IH; [done|]. intros b Hb. apply H. by right.
Qed.

Lemma filter_none {A} (P : A -> Prop) `{!forall x, Decision (P x)} (l : list A) :
  (forall a, In a l -> ~ P a) -> filter P l = [].
Proof.
  induction l as [|a l IH]; intros Hn; [done|].
  rewrite filter_cons_False; [|apply Hn; by left]. apply IH. intros b Hb. apply Hn. by right.
Qed.

Lemma in_coords (W H x y : Z) : 0 <= x < W -> 0 <= y < H -> In (x, y) (coords W H).
Proof.
  intros Hx Hy. unfold coords. apply in_concat. exists (map (fun x => (x, y)) (seqZ 0 W)).
  split; apply in_map_iff.
  - exists y. split; [done|]. apply list_elem_of_In, elem_of_seqZ. lia.
  - exists x. split; [done|]. apply list_elem_of_In, elem_of_seqZ. lia.
Qed.

Lemma coords_in (W H x y : Z) : In (x, y) (coords W H) -> 0 <= x < W /\ 0 <= y < H.
Proof.
  unfold coords. intros Hin. apply in_concat in Hin as [row [Hrow Hin]].
  apply in_map_iff in Hrow as [y' [<- Hy]]. apply in_map_iff in Hin as [x' [Heq Hx]].
  injection Heq as -> ->.
  apply list_elem_of_In, elem_of_seqZ in Hx. apply list_elem_of_In, elem_of_seqZ in Hy. lia.
Qed.

(** On a well-formed mask, a pixel at non-negative coordinates with a
    non-zero value lies inside the mask. *)
Lemma mpix_nonzero_in (m : mask) (x y : Z) :
  wf m -> 0 <= x -> 0 <= y -> mpix m x y <> 0 -> x < gw m /\ y < gh m.
Proof.
  intros (HW & HH & Hlen & Hrows) Hx Hy Hm. unfold mpix, at_ in Hm.
  destruct (cells m !! Z.to_nat y) as [row|] eqn:Er; simpl in Hm; [|done].
  destruct (row !! Z.to_nat x) as [v|] eqn:Ev; simpl in Hm; [|done].
  pose proof (lookup_lt_Some _ _ _ Er) as Hy'. pose proof (lookup_lt_Some _ _ _ Ev) as Hx'.
  pose proof (Forall_lookup_1 _ _ _ _ Hrows Er) as Hrow. simpl in Hrow. lia.
Qed.

Lemma mask_covers_nonneg (x1 y1 x2 y2 x y : Z) :
  0 <= x1 -> 0 <= y1 -> mask_covers (x1, y1, x2, y2) x y = in_region (x1, y1, x2, y2) x y.
Proof.
  intros H1 H2. unfold mask_covers, in_region. apply Bool.eq_iff_eq_true.
  rewrite !andb_true_iff, !Z.ltb_lt, !Z.leb_le. lia.
Qed.

(** [create_mask] on boxes whose top-left corner is non-negative: a pixel
    of the image is white (255) exactly when it lies inside one of the
    boxes, and black (0) otherwise. *)
Theorem create_mask_exact (W H : Z) (boxes : list region) (x y : Z) :
  (forall x1 y1 x2 y2, In (x1, y1, x2, y2) boxes -> 0 <= x1 /\ 0 <= y1) ->
  0 <= x < W -> 0 <= y < H ->
  mpix (create_mask W H boxes) x y =
  if existsb (fun bx => in_region bx x y) boxes then 255 else 0.
Proof.
  intros Hb Hx Hy. unfold mpix, create_mask. rewrite at_build by lia.
  rewrite (existsb_ext_in _ (fun bx => in_region bx x y)); [done|].
  intros [[[x1 y1] x2] y2] Hin. destruct (Hb _ _ _ _ Hin). by apply mask_covers_nonneg.
Qed.

Lemma create_mask_exact_witness :
  mpix (create_mask 10 10 [(2, 3, 5, 6); (4, 4, 4, 9)]) 4 5 = 255 /\
  mpix (create_mask 10 10 [(2, 3, 5, 6); (4, 4, 4, 9)]) 5 5 = 0.
Proof.
  assert (Hb : forall x1 y1 x2 y2, In (x1, y1, x2, y2) [(2, 3, 5, 6); (4, 4, 4, 9)] ->
                 0 <= x1 /\ 0 <= y1).
  { intros x1 y1 x2 y2 [Heq|[Heq|[]]]; injection Heq as <- <- <- <-; lia. }
  split.
  - rewrite (create_mask_exact 10 10 _ 4 5 Hb ltac:(lia) ltac:(lia)). reflexivity.
  - rewrite (create_mask_exact 10 10 _ 5 5 Hb ltac:(lia) ltac:(lia)). reflexivity.
Defined.

(** A box of positive size whose left edge is negative is not clipped
    but shifted: [create_mask] marks the column [x2], which lies right
    of the box. *)
Theorem create_mask_negative_left_shifts (W H x1 y1 x2 y2 y : Z) :
  x1 < 0 -> 0 <= y1 -> y1 < y2 -> 0 <= x2 < W -> y1 <= y < y2 -> y < H ->
  in_region (x1, y1, x2, y2) x2 y = false /\
  mpix (create_mask W H [(x1, y1, x2, y2)]) x2 y = 255.
Proof.
  intros H1 H2 H3 H4 H5 H6. split.
  - unfold in_region. apply Bool.not_true_iff_false.
    rewrite !andb_true_iff, !Z.ltb_lt, !Z.leb_le. lia.
  - assert (Hc : mask_covers (x1, y1, x2, y2) x2 y = true).
    { unfold mask_covers. rewrite !andb_true_iff, !Z.ltb_lt, !Z.leb_le. lia. }
    unfold mpix, create_mask. rewrite at_build by lia. cbn [existsb]. by rewrite Hc.
Qed.

Lemma create_mask_negative_left_shifts_witness :
  in_region (-5, 0, 3, 4) 3 0 = false /\ mpix (create_mask 10 10 [(-5, 0, 3, 4)]) 3 0 = 255.
Proof. apply (create_mask_negative_left_shifts 10 10 (-5) 0 3 4 0); lia. Defined.

(** On a well-formed mask, [simple_fill_clean] paints every mask pixel
    (value 255) of the image with one and the same colour and leaves every
    other pixel as it was. *)
Theorem simple_fill_uniform (img : image) (m : mask) :
  wf m -> exists c, forall x y, in_dom img x y = true ->
    pix (simple_fill_clean img m) x y = if mpix m x y =? 255 then c else pix img x y.
Proof.
  intros Hwf. unfold simple_fill_clean.
  destruct (filter _ (coords (gw m) (gh m))) as [|p l] eqn:Hmp.
  - exists white. intros x y Hd. destruct (Z.eqb_spec (mpix m x y) 255) as [Hm|Hm]; [|done].
    exfalso. apply in_dom_bounds in Hd.
    destruct (mpix_nonzero_in m x y Hwf ltac:(lia) ltac:(lia) ltac:(lia)) as [Hx Hy].
    refine (filter_nil_not_elem_of _ _ (x, y) Hmp _ _); [simpl; by rewrite Hm|].
    apply list_elem_of_In, in_coords; lia.
  - eexists. intros x y Hd. apply in_dom_bounds in Hd. cbv beta iota zeta.
    unfold pix at 1. rewrite at_build by lia. reflexivity.
Qed.

Lemma simple_fill_uniform_witness :
  wf (build 3 2 (fun x y => if x =? 1 then 255 else 0)) /\
  pix (simple_fill_clean (build 3 2 (fun x y => (10 * x, 10 * y, 7)))
         (build 3 2 (fun x y => if x =? 1 then 255 else 0))) 1 0 =
  pix (simple_fill_clean (build 3 2 (fun x y => (10 * x, 10 * y, 7)))
         (build 3 2 (fun x y => if x =? 1 then 255 else 0))) 1 1.
Proof.
  assert (Hwf : wf (build 3 2 (fun x y => if x =? 1 then 255 else 0))) by (apply wf_build; lia).
  split; [exact Hwf|].
  destruct (simple_fill_uniform (build 3 2 (fun x y => (10 * x, 10 * y, 7))) _ Hwf) as [c Hc].
  rewrite (Hc 1 0 eq_refl), (Hc 1 1 eq_refl). reflexivity.
Defined.

(** When the mask covers the whole image (same size, every pixel 255),
    there is no boundary pixel and [simple_fill_clean] paints the whole
    image white. *)
Theorem simple_fill_full_mask_white (img : image) (m : mask) :
  gw m = gw img -> gh m = gh img -> 0 < gw img -> 0 < gh img ->
  (forall x y, in_dom m x y = true -> mpix m x y = 255) ->
  forall x y, in_dom img x y = true -> pix (simple_fill_clean img m) x y = white.
Proof.
  intros HW HH HW0 HH0 Hfull x y Hd. apply in_dom_bounds in Hd.
  assert (Hall : forall p, In p (coords (gw m) (gh m)) -> mpix m p.1 p.2 = 255).
  { intros [a b] Hp. apply coords_in in Hp. apply Hfull. simpl. unfold in_dom.
    rewrite !andb_true_iff, !Z.ltb_lt, !Z.leb_le. lia. }
  unfold simple_fill_clean.
  destruct (filter (fun '(x, y) => mpix m x y =? 255) (coords (gw m) (gh m))) as [|p l] eqn:Hmp.
  - exfalso. refine (filter_nil_not_elem_of _ _ (0, 0) Hmp _ _).
    + pose proof (Hall (0, 0) ltac:(apply in_coords; lia)) as H0. simpl in H0 |- *.
      by rewrite H0.
    + apply list_elem_of_In, in_coords; lia.
  - replace (filter (fun '(x, y) => dilated m x y && (mpix m x y =? 0)) (coords (gw m) (gh m)))
      with (@nil (Z * Z)).
    + cbv beta iota zeta. unfold pix at 1. rewrite at_build by lia.
      pose proof (Hall (x, y) ltac:(apply in_coords; lia)) as H0. simpl in H0. by rewrite H0.
    + symmetry. apply filter_none. intros [a b] Hp. pose proof (Hall (a, b) Hp) as H0.
      simpl in H0 |- *. rewrite H0.
      rewrite andb_false_r. simpl. tauto.
Qed.

Lemma simple_fill_full_mask_white_witness :
  pix (simple_fill_clean (build 2 2 (fun x y => (x, y, 9))) (build 2 2 (fun _ _ => 255))) 1 0 = white.
Proof.
  apply (simple_fill_full_mask_white (build 2 2 (fun x y => (x, y, 9))) (build 2 2 (fun _ _ => 255)));
    [reflexivity|reflexivity|simpl; lia|simpl; lia| |reflexivity].
  intros x y Hd. apply in_dom_bounds in Hd. simpl in Hd. unfold mpix. rewrite at_build by lia.
  reflexivity.
Defined.

End RemoverExtra.

Module ComposeSimpleExtra.
Import PyFacts Composer ComposeSimple TasksRouterExtra.






End ComposeSimpleExtra.
